(** * SDFDiffusion: the octree SDF diffusion model of
    [sparsity_network/sparsity_model.py]

    The file embeds the class [SDFDiffusion]: its constructor, the training
    loss with the per-element forward corruption, the time-step scheduler and
    the two reverse samplers (DDPM and DDIM) with their common entry point.

    Numbers.  Torch tensors hold floats; here every scalar is an exact
    rational ([Q]), so that the definitions run, and the results below are
    about the arithmetic the code writes down, not about rounding.  The
    functions the code imports from elsewhere ([expm1], [sqrt], the two
    log-SNR schedules and [log_snr_to_alpha_sigma] of [network.model_utils],
    the U-Net) and torch's random generator are the fields of the class
    [Imports], over which everything is stated. *)

From Stdlib Require Import QArith Qminmax Lqa Lia String Sorted.
From stdpp Require Import base list.

(** ** Tensors *)

Module Tensor.

(** A tensor of shape [(b,)]. *)
Abbreviation vec := (list Q).

(** A flat feature field, shape [(N, C)]: one row per active octree node. *)
Abbreviation field := (list (list Q)).

Definition shape (x : field) : list nat := length <$> x.

Definition tmap (f : Q → Q) (x : field) : field :=
  fmap (M:=list) f <$> x.
Definition tzip (f : Q → Q → Q) (x y : field) : field :=
  zip_with (zip_with f) x y.

(** Elementwise operators.  The operand order of the source is kept:
    [mul_s x a] is [x * a] and [s_mul a x] is [a * x], for a field [x] and a
    scalar (or one-entry tensor, which broadcasts the same way) [a]. *)
Definition add (x y : field) : field := tzip Qplus x y.
Definition sub (x y : field) : field := tzip Qminus x y.
Definition mul_s (x : field) (a : Q) : field := tmap (λ v, v * a)%Q x.
Definition s_mul (a : Q) (x : field) : field := tmap (λ v, a * v)%Q x.
Definition div_s (x : field) (a : Q) : field := tmap (λ v, v / a)%Q x.
Definition pow2 (x : field) : field := tmap (λ v, v ^ 2)%Q x.

(** [x.clamp_(lo, hi)] is [min(max(x, lo), hi)] on every entry. *)
Definition clamp_scalar (lo hi v : Q) : Q := Qmin (Qmax v lo) hi.
Definition clamp (lo hi : Q) (x : field) : field := tmap (clamp_scalar lo hi) x.

(** [sigma.clamp(min=m)]. *)
Definition clamp_min (m v : Q) : Q := Qmax v m.

(** [x[mask]] for a boolean mask over the rows: the rows whose mask entry is
    true, in their order.  (Torch raises when the mask and [x] differ in
    length; here the longer one is cut.) *)
Fixpoint index_mask {A} (x : list A) (mask : list bool) : list A :=
  match x, mask with
  | r :: x', m :: mask' =>
      if m then r :: index_mask x' mask' else index_mask x' mask'
  | _, _ => []
  end.

(** [batch_id == i]. *)
Definition eq_mask (batch_id : list nat) (i : nat) : list bool :=
  (λ b, Nat.eqb b i) <$> batch_id.

Definition sum (xs : list Q) : Q := foldr Qplus 0%Q xs.

(** [x.mean()]: the mean over all entries.  Over no entry at all torch
    gives nan, which is [None] here. *)
Definition tmean (x : field) : option Q :=
  match concat x with
  | [] => None
  | xs => Some (sum xs / inject_Z (Z.of_nat (length xs)))%Q
  end.

(** [torch.linspace(start, end, steps)]: [steps] values, the [i]-th being
    [start + i * (end - start) / (steps - 1)]. *)
Definition linspace (start end_ : Q) (steps : nat) : vec :=
  (λ i, start + inject_Z (Z.of_nat i)
                * ((end_ - start) / inject_Z (Z.of_nat steps - 1)))%Q
    <$> seq 0 steps.

(** [repeat(times, 't -> b t', b=batch)]. *)
Definition repeat_rows (batch : nat) (times : vec) : field :=
  replicate batch times.

(** [x[:, :-1]] and [x[:, 1:]]. *)
Definition but_last_col (x : field) : field :=
  (λ row, take (length row - 1) row) <$> x.
Definition from_1_col (x : field) : field := drop 1 <$> x.

Definition column (k : nat) (x : field) : vec := (λ row, nth k row 0%Q) <$> x.

(** [torch.stack((a, b), dim=0).unbind(dim=-1)] for [a], [b] of shape
    [(batch, width)]: [width] tensors of shape [(2, batch)], the [k]-th made
    of the [k]-th columns of [a] and of [b].  Each is kept as the pair that
    [for time, time_next in ...] unpacks it to. *)
Definition stack_unbind (width : nat) (a b : field) : list (vec * vec) :=
  (λ k, (column k a, column k b)) <$> seq 0 width.

(** [x[i][j]], when the field has it. *)
Definition entry (x : field) (i j : nat) : option Q :=
  x !! i ≫= λ row, row !! j.

(** The entry of a one-entry tensor, as broadcasting against a field and
    the truth test of [if] read it. *)
Definition item (v : vec) : Q := hd 0%Q v.

End Tensor.

Import Tensor.

(** ** Raising *)

Inductive exception : Type :=
  | ValueError (msg : string).

Inductive result (A : Type) : Type :=
  | Ok (a : A)
  | Raise (e : exception).
Arguments Ok {A} a.
Arguments Raise {A} e.

(** ** The octree handle ([ocnn.octree.Octree]), as far as the class reads it *)

Record Octree : Type := {
  batch_size : nat;
  depth : nat;
  batch_id : nat → bool → list nat
}.

(** ** The model *)

(** [self.denoise_fn(x, noise_level, octree, self_cond)]; [None] is also
    what a call that leaves the last argument out passes. *)
Definition network := field → vec → Octree → option field → field.

Record SDFDiffusion : Type := {
  base_size : nat;
  upfactor : nat;
  eps : Q;
  verbose : bool;
  sdf_clip_value : Q;
  log_snr : Q → Q;
  denoise_fn : network
}.

(** [tqdm(iterable, desc=...)] yields the items of [iterable]. *)
Definition tqdm {A} (iterable : list A) : list A := iterable.

(** ** What the class imports *)

Class Imports : Type := {
  (** [network.model_utils] *)
  beta_linear_log_snr : Q → Q;
  alpha_cosine_log_snr : Q → Q;
  log_snr_to_alpha_sigma : Q → Q * Q;
  (** [torch.special.expm1], [torch.sqrt] *)
  expm1 : Q → Q;
  sqrt : Q → Q;
  (** [Sparsity_UNetModel(base_channels, base_size, upfactor,
      condition_classes, verbose)] *)
  Sparsity_UNetModel : nat → nat → nat → nat → bool → network;
  (** Torch's random generator: a state, and the draw of one standard normal
      value, or of one uniform value of [[lo, hi)], from it. *)
  generator : Type;
  normal_ : generator → Q * generator;
  uniform_ : Q → Q → generator → Q * generator
}.

Section Model.

Context `{Imports}.

(** *** Code that draws random numbers *)

Definition M (A : Type) : Type := generator → A * generator.

#[global] Instance M_ret : MRet M := λ A (a : A) g, (a, g).
#[global] Instance M_bind : MBind M :=
  λ A B (k : A → M B) (m : M A) g, let '(a, g') := m g in k a g'.

(** [torch.randn_like(x)] *)
Definition randn_like (x : field) : M field :=
  mapM (mapM (λ _ : Q, normal_ : M Q)) x.

(** [torch.zeros((n,)).float().uniform_(lo, hi)] *)
Definition zeros_uniform_ (n : nat) (lo hi : Q) : M vec :=
  mapM (λ _ : Q, uniform_ lo hi : M Q) (replicate n 0%Q).

(** *** [__init__] *)

Definition init (base_size upfactor base_channels : nat) (verbose : bool)
    (eps : Q) (noise_schedule : string) (sdf_clip_value : Q)
    : result SDFDiffusion :=
  match
    (if String.eqb noise_schedule "linear" then Ok beta_linear_log_snr
     else if String.eqb noise_schedule "cosine" then Ok alpha_cosine_log_snr
     else Raise (ValueError ("invalid noise schedule " ++ noise_schedule)))
  with
  | Raise e => Raise e
  | Ok schedule =>
      Ok {| base_size := base_size;
            upfactor := upfactor;
            eps := eps;
            verbose := verbose;
            sdf_clip_value := sdf_clip_value;
            log_snr := schedule;
            denoise_fn :=
              Sparsity_UNetModel base_channels base_size upfactor 1 verbose |}
  end.

(** The defaults of the signature. *)
Definition init_default (noise_schedule : string) : result SDFDiffusion :=
  init 32 2 128 false 1e-6%Q noise_schedule 0.05%Q.

(** *** [training_loss] *)

(** The loop that fills [x_t], and [torch.cat(x_t, dim=0)]. *)
Definition training_loss_x_t (x_start : field) (batch_id : list nat)
    (noise_level : vec) (batch_size : nat) : M field :=
  x_t ← mapM (λ i : nat,
          let feature := index_mask x_start (eq_mask batch_id i) in
          let '(alpha, sigma) :=
            log_snr_to_alpha_sigma (nth i noise_level 0%Q) in
          noise ← randn_like feature;
          mret (add (mul_s feature alpha) (s_mul sigma noise)))
        (seq 0 batch_size);
  mret (concat x_t).

(** The loop that fills [loss], starting from [torch.zeros((batch_size,))]. *)
Definition training_loss_fill (sdf_loss : field) (batch_id : list nat)
    (batch_size : nat) : list (option Q) :=
  foldl (λ loss i,
           <[i := tmean (index_mask sdf_loss (eq_mask batch_id i))]> loss)
        (replicate batch_size (Some 0%Q)) (seq 0 batch_size).

Definition training_loss (self : SDFDiffusion) (x_start : field)
    (octree : Octree) : M (list (option Q)) :=
  let batch_size := batch_size octree in
  times ← zeros_uniform_ batch_size 0 1;
  let noise_level := log_snr self <$> times in
  let batch_id := batch_id octree (depth octree) true in
  x_t ← training_loss_x_t x_start batch_id noise_level batch_size;
  let pred := denoise_fn self x_t noise_level octree None in
  let sdf_loss := pow2 (sub pred x_start) in
  mret (training_loss_fill sdf_loss batch_id batch_size).

(** The forward corruption as the specification words it: every row of
    [x_start] noised in place, with a noise row of its own, at the noise
    level of the batch element [batch_id] gives for it. *)
Definition corrupt_row (noise_level : vec) (row : vec) (b : nat)
    (noise_row : vec) : vec :=
  let '(alpha, sigma) := log_snr_to_alpha_sigma (nth b noise_level 0%Q) in
  zip_with (λ v e, v * alpha + sigma * e)%Q row noise_row.

Definition corrupt_in_place (x_start : field) (batch_id : list nat)
    (noise_level : vec) (noise : field) : field :=
  zip_with (λ rb noise_row, corrupt_row noise_level rb.1 rb.2 noise_row)
    (zip x_start batch_id) noise.

(** The rows of [x] taken batch element after batch element, those of one
    element in their order: what the masks of the loop pick, put end to
    end. *)
Definition by_element {A} (x : list A) (batch_id : list nat)
    (batch_size : nat) : list A :=
  concat ((λ i, index_mask x (eq_mask batch_id i)) <$> seq 0 batch_size).

(** The mean squared error of one batch element as the specification words
    it: over the rows of the element, the squares of [pred - x_start] summed
    row by row, divided by the number of entries. *)
Definition element_rows (pred x_start : field) (batch_id : list nat)
    (i : nat) : list (vec * vec) :=
  snd <$> filter (λ r, r.1 = i) (zip batch_id (zip pred x_start)).

Definition element_mse (pred x_start : field) (batch_id : list nat)
    (i : nat) : Q :=
  let rows := element_rows pred x_start batch_id i in
  (sum ((λ r, sum (zip_with (λ p x, (p - x) ^ 2) r.1 r.2)) <$> rows)
   / inject_Z (Z.of_nat (length (concat (fst <$> rows)))))%Q.

(** *** [get_sampling_timesteps] *)

Definition get_sampling_timesteps (self : SDFDiffusion) (batch steps : nat)
    : list (vec * vec) :=
  let times := linspace 1 0 (steps + 1) in
  let times := repeat_rows batch times in
  stack_unbind (steps + 1 - 1) (but_last_col times) (from_1_col times).

(** A [for] loop over [items] that carries [s]. *)
Fixpoint for_in {A S} (body : S → A → M S) (items : list A) (s : S) : M S :=
  match items with
  | [] => mret s
  | a :: rest => s' ← body s a; for_in body rest s'
  end.

(** *** [ddpm_sample] *)

(** The time pairs of the samplers come from [get_sampling_timesteps(1, ...)]:
    [time], [time_next] and all that is computed from them are one-entry
    tensors, written here as their entry. *)

Definition ddpm_mean (self : SDFDiffusion) (octree : Octree)
    (time time_next : Q) (noise_feature : field) : field :=
  let log_snr_ := log_snr self time in
  let log_snr_next := log_snr self time_next in
  let '(alpha, sigma) := log_snr_to_alpha_sigma log_snr_ in
  let '(alpha_next, sigma_next) := log_snr_to_alpha_sigma log_snr_next in
  let x_start := denoise_fn self noise_feature [log_snr_] octree None in
  let x_start := clamp (-1) 1 x_start in
  let c := (- expm1 (log_snr_ - log_snr_next))%Q in
  s_mul alpha_next
    (add (div_s (mul_s noise_feature (1 - c)%Q) alpha) (s_mul c x_start)).

Definition ddpm_variance (self : SDFDiffusion) (time time_next : Q) : Q :=
  let log_snr_ := log_snr self time in
  let log_snr_next := log_snr self time_next in
  let '(alpha_next, sigma_next) := log_snr_to_alpha_sigma log_snr_next in
  let c := (- expm1 (log_snr_ - log_snr_next))%Q in
  (sigma_next ^ 2 * c)%Q.

(** The body of the loop. *)
Definition ddpm_step (self : SDFDiffusion) (octree : Octree)
    (truncated_index : Q) (noise_feature : field) (pair : vec * vec)
    : M field :=
  let '(time, time_next) := pair in
  let mean := ddpm_mean self octree (item time) (item time_next) noise_feature in
  let variance := ddpm_variance self (item time) (item time_next) in
  if Qlt_le_dec truncated_index (item time_next) then
    noise ← randn_like noise_feature;
    mret (add mean (s_mul (sqrt variance) noise))
  else mret mean.

Definition ddpm_sample (self : SDFDiffusion) (noise_feature : field)
    (octree : Octree) (steps : nat) (truncated_index : Q) (verbose : bool)
    : M field :=
  let time_pairs := get_sampling_timesteps self 1 steps in
  let loops := if verbose then tqdm time_pairs else time_pairs in
  for_in (ddpm_step self octree truncated_index) loops noise_feature.

(** The number of pairs of a schedule whose [time_next] is above the
    truncation index: the steps on which the loop takes its noisy branch. *)
Definition noisy_steps (truncated_index : Q) (pairs : list (vec * vec))
    : nat :=
  length (List.filter
            (λ pair, if Qlt_le_dec truncated_index (item pair.2)
                     then true else false) pairs).

(** *** [ddim_sample] *)

Definition ddim_step (self : SDFDiffusion) (octree : Octree)
    (noise_feature : field) (pair : vec * vec) : M field :=
  let '(time, time_next) := pair in
  let log_snr_ := log_snr self (item time) in
  let log_snr_next := log_snr self (item time_next) in
  let '(alpha, sigma) := log_snr_to_alpha_sigma log_snr_ in
  let '(alpha_next, sigma_next) := log_snr_to_alpha_sigma log_snr_next in
  let x_start := denoise_fn self noise_feature [log_snr_] octree None in
  let x_start := clamp (-1) 1 x_start in
  let pred_noise :=
    div_s (sub noise_feature (s_mul alpha x_start)) (clamp_min 1e-8 sigma) in
  mret (add (mul_s x_start alpha_next) (mul_s pred_noise sigma_next)).

(** What one step puts into the field, without the generator. *)
Definition ddim_next (self : SDFDiffusion) (octree : Octree)
    (noise_feature : field) (pair : vec * vec) : field :=
  let log_snr_ := log_snr self (item pair.1) in
  let log_snr_next := log_snr self (item pair.2) in
  let alpha := (log_snr_to_alpha_sigma log_snr_).1 in
  let sigma := (log_snr_to_alpha_sigma log_snr_).2 in
  let alpha_next := (log_snr_to_alpha_sigma log_snr_next).1 in
  let sigma_next := (log_snr_to_alpha_sigma log_snr_next).2 in
  let x_start :=
    clamp (-1) 1 (denoise_fn self noise_feature [log_snr_] octree None) in
  add (mul_s x_start alpha_next)
      (mul_s (div_s (sub noise_feature (s_mul alpha x_start))
                    (clamp_min 1e-8 sigma))
             sigma_next).

Definition ddim_sample (self : SDFDiffusion) (noise_feature : field)
    (octree : Octree) (steps : nat) (truncated_index : Q) (verbose : bool)
    : M field :=
  let time_pairs := get_sampling_timesteps self 1 steps in
  let loops := if verbose then tqdm time_pairs else time_pairs in
  for_in (ddim_step self octree) loops noise_feature.

(** *** [sample] *)

Definition sample (self : SDFDiffusion) (data : field) (octree : Octree)
    (use_ddim : bool) (steps : nat) (truncated_index : Q) (verbose : bool)
    : M field :=
  noise_feature ← randn_like data;
  let sample_fn := if negb use_ddim then ddpm_sample self else ddim_sample self in
  sample_fn noise_feature octree steps truncated_index verbose.

End Model.

(** ** A small concrete setting, to run the definitions on *)

Module Demo.

(** A generator that counts its draws: the [n]-th normal draw is
    [(n - 2) / 3], the [n]-th uniform draw of [[lo, hi)] is
    [lo + (hi - lo) / (n + 2)]. *)
Definition demo_normal (n : nat) : Q * nat :=
  ((inject_Z (Z.of_nat n) - 2) / 3, S n)%Q.
Definition demo_uniform (lo hi : Q) (n : nat) : Q * nat :=
  (lo + (hi - lo) / (inject_Z (Z.of_nat n) + 2), S n)%Q.

(** A network that halves its input and shifts it by the first noise
    level. *)
Definition demo_network (_ _ _ _ : nat) (_ : bool) : network :=
  λ x noise_level _ _, tmap (λ v, v / 2 + item noise_level)%Q x.

#[global] Instance demo_imports : Imports := {|
  beta_linear_log_snr := λ t, (4 - 8 * t)%Q;
  alpha_cosine_log_snr := λ t, (3 - 6 * t * t)%Q;
  log_snr_to_alpha_sigma := λ l, ((l + 5) / 10, (5 - l) / 10)%Q;
  expm1 := λ x, (x + x * x / 2)%Q;
  sqrt := λ x, ((x + 1) / 2)%Q;
  Sparsity_UNetModel := demo_network;
  generator := nat;
  normal_ := demo_normal;
  uniform_ := demo_uniform
|}.

Definition demo_model : SDFDiffusion :=
  {| base_size := 32; upfactor := 2; eps := 1e-6; verbose := false;
     sdf_clip_value := 0.05;
     log_snr := beta_linear_log_snr;
     denoise_fn := Sparsity_UNetModel 128 32 2 1 false |}.

(** Two shapes, rows in batch order. *)
Definition demo_octree : Octree :=
  {| batch_size := 2; depth := 3; batch_id := λ _ _, [0; 0; 1]%nat |}.

Definition demo_field : field := [[1; 2]; [3; 4]; [5; 6]]%Q.

End Demo.

(** * Properties *)

(** ** Entries of the elementwise operators *)

Section TensorFacts.

Lemma entry_tmap f x i j : entry (tmap f x) i j = f <$> entry x i j.
Proof.
  unfold entry, tmap. rewrite list_lookup_fmap.
  destruct (x !! i) as [row|]; simpl; [apply list_lookup_fmap | done].
Qed.

Lemma entry_tzip f x y i j :
  entry (tzip f x y) i j =
    a ← entry x i j; b ← entry y i j; Some (f a b).
Proof.
  unfold entry, tzip. rewrite lookup_zip_with.
  destruct (x !! i) as [r|]; simpl; [|done].
  destruct (y !! i) as [r'|]; simpl.
  - rewrite lookup_zip_with. by destruct (r !! j).
  - by destruct (r !! j).
Qed.

Lemma entry_tzip_Some f x y i j a b :
  entry x i j = Some a → entry y i j = Some b →
  entry (tzip f x y) i j = Some (f a b).
Proof. intros Hx Hy. by rewrite entry_tzip, Hx, Hy. Qed.

Lemma shape_tmap f x : shape (tmap f x) = shape x.
Proof.
  unfold shape, tmap. rewrite <- list_fmap_compose.
  apply list_fmap_ext. intros _ row _. simpl. apply length_fmap.
Qed.

Lemma shape_tzip f x y : shape x = shape y → shape (tzip f x y) = shape x.
Proof.
  unfold shape, tzip. revert y.
  induction x as [|r x IH]; intros [|r' y] Hs; simplify_eq/=; [done|].
  f_equal; [|by apply IH].
  rewrite length_zip_with. lia.
Qed.

Lemma clamp_scalar_bounds lo hi v :
  (lo <= hi)%Q → (lo <= clamp_scalar lo hi v <= hi)%Q.
Proof.
  intros Hle. unfold clamp_scalar. split.
  - apply Q.min_glb; [apply Q.le_max_r | done].
  - apply Q.le_min_r.
Qed.

Lemma clamp_min_floor m v : (m <= clamp_min m v)%Q.
Proof. apply Q.le_max_r. Qed.

End TensorFacts.

(** ** The DDPM sampler *)

Section DdpmFacts.

Context `{Imports}.

Lemma entry_ddpm_mean (self : SDFDiffusion) octree time time_next
    (noise_feature : field) i j v p :
  entry noise_feature i j = Some v →
  entry (denoise_fn self noise_feature [log_snr self time] octree None) i j
    = Some p →
  entry (ddpm_mean self octree time time_next noise_feature) i j =
    Some (let c := - expm1 (log_snr self time - log_snr self time_next) in
          (log_snr_to_alpha_sigma (log_snr self time_next)).1
          * (v * (1 - c) / (log_snr_to_alpha_sigma (log_snr self time)).1
             + c * clamp_scalar (-1) 1 p))%Q.
Proof.
  intros Hv Hp. unfold ddpm_mean.
  destruct (log_snr_to_alpha_sigma (log_snr self time)) as [alpha sigma].
  destruct (log_snr_to_alpha_sigma (log_snr self time_next))
    as [alpha_next sigma_next].
  unfold s_mul, add, div_s, mul_s, clamp. simpl.
  rewrite entry_tmap, entry_tzip, !entry_tmap, Hv, Hp. done.
Qed.

Lemma ddpm_variance_eq (self : SDFDiffusion) time time_next :
  ddpm_variance self time time_next =
    ((log_snr_to_alpha_sigma (log_snr self time_next)).2 ^ 2
     * - expm1 (log_snr self time - log_snr self time_next))%Q.
Proof.
  unfold ddpm_variance.
  by destruct (log_snr_to_alpha_sigma (log_snr self time_next)).
Qed.

Lemma ddpm_step_noisy (self : SDFDiffusion) octree truncated_index
    (noise_feature : field) (time time_next : vec) g :
  (truncated_index < item time_next)%Q →
  ddpm_step self octree truncated_index noise_feature (time, time_next) g =
    let '(noise, g') := randn_like noise_feature g in
    (add (ddpm_mean self octree (item time) (item time_next) noise_feature)
         (s_mul (sqrt (ddpm_variance self (item time) (item time_next))) noise),
     g').
Proof.
  intros Hlt. unfold ddpm_step.
  destruct (Qlt_le_dec truncated_index (item time_next)) as [_|Hle].
  - done.
  - exfalso. by apply (Qlt_not_le _ _ Hlt).
Qed.

Lemma ddpm_step_truncated (self : SDFDiffusion) octree truncated_index
    (noise_feature : field) (time time_next : vec) g :
  (item time_next <= truncated_index)%Q →
  ddpm_step self octree truncated_index noise_feature (time, time_next) g =
    (ddpm_mean self octree (item time) (item time_next) noise_feature, g).
Proof.
  intros Hle. unfold ddpm_step.
  destruct (Qlt_le_dec truncated_index (item time_next)) as [Hlt|_].
  - exfalso. by apply (Qlt_not_le _ _ Hlt).
  - done.
Qed.

(** C1.  One step of the DDPM loop, entry by entry.  Where the current field
    holds [v] and the denoiser predicts [p], the clamped prediction
    [x_start] lies in [-1, 1]; with [c = -expm1(log_snr - log_snr_next)] the
    posterior mean holds [alpha_next * (v * (1 - c) / alpha + c * x_start)],
    the posterior variance is [sigma_next^2 * c], and the updated field holds
    the mean, plus [sqrt(variance)] times the drawn noise when the step
    injects noise.  [alpha], [alpha_next] and [sigma_next] come from
    [log_snr(time)] and [log_snr(time_next)]. *)
Theorem ddpm_step_posterior (self : SDFDiffusion) octree
    (time time_next : vec) (noise_feature : field) i j v p :
  entry noise_feature i j = Some v →
  entry (denoise_fn self noise_feature [log_snr self (item time)] octree None)
    i j = Some p →
  let log_snr_ := log_snr self (item time) in
  let log_snr_next := log_snr self (item time_next) in
  let alpha := (log_snr_to_alpha_sigma log_snr_).1 in
  let alpha_next := (log_snr_to_alpha_sigma log_snr_next).1 in
  let sigma_next := (log_snr_to_alpha_sigma log_snr_next).2 in
  let x_start := clamp_scalar (-1) 1 p in
  let c := (- expm1 (log_snr_ - log_snr_next))%Q in
  let mean := (alpha_next * (v * (1 - c) / alpha + c * x_start))%Q in
  let variance := (sigma_next ^ 2 * c)%Q in
  (-1 <= x_start <= 1)%Q ∧
  entry (ddpm_mean self octree (item time) (item time_next) noise_feature) i j
    = Some mean ∧
  ddpm_variance self (item time) (item time_next) = variance ∧
  ∀ truncated_index g,
    entry (ddpm_step self octree truncated_index noise_feature
             (time, time_next) g).1 i j =
      if Qlt_le_dec truncated_index (item time_next)
      then (λ e, mean + sqrt variance * e)%Q
             <$> entry (randn_like noise_feature g).1 i j
      else Some mean.
Proof.
  intros Hv Hp. cbv zeta.
  pose proof (entry_ddpm_mean self octree (item time) (item time_next)
                noise_feature i j v p Hv Hp) as Hmean.
  cbv zeta in Hmean.
  split; [by apply clamp_scalar_bounds|].
  split; [done|].
  split; [apply ddpm_variance_eq|].
  intros truncated_index g.
  destruct (Qlt_le_dec truncated_index (item time_next)) as [Hlt|Hle].
  - rewrite ddpm_step_noisy by done.
    destruct (randn_like noise_feature g) as [noise g']. simpl.
    unfold add, s_mul. rewrite entry_tzip, Hmean, entry_tmap, ddpm_variance_eq.
    by destruct (entry noise i j).
  - rewrite ddpm_step_truncated by done. done.
Qed.

(** C2.  A step whose [time_next] is above the truncation index draws noise
    of the field's shape and returns [mean + sqrt(variance) * noise]; a step
    whose [time_next] is at or below it returns exactly the mean and leaves
    the generator as it was: no noise is drawn. *)
Theorem ddpm_step_truncation (self : SDFDiffusion) octree truncated_index
    (noise_feature : field) (time time_next : vec) g :
  let mean :=
    ddpm_mean self octree (item time) (item time_next) noise_feature in
  let variance := ddpm_variance self (item time) (item time_next) in
  let next :=
    ddpm_step self octree truncated_index noise_feature (time, time_next) g in
  ((truncated_index < item time_next)%Q →
     next = (add mean (s_mul (sqrt variance) (randn_like noise_feature g).1),
             (randn_like noise_feature g).2)) ∧
  ((item time_next <= truncated_index)%Q → next = (mean, g)).
Proof.
  cbv zeta. split.
  - intros Hlt. rewrite ddpm_step_noisy by done.
    by destruct (randn_like noise_feature g).
  - apply ddpm_step_truncated.
Qed.

End DdpmFacts.

(** ** The DDIM sampler *)

Section DdimFacts.

Context `{Imports}.

(** A loop whose body draws nothing is a fold, and leaves the generator. *)
Lemma for_in_pure {A S} (body : S → A → M S) (f : S → A → S) items :
  (∀ s a g, body s a g = (f s a, g)) →
  ∀ s g, for_in body items s g = (foldl f s items, g).
Proof.
  intros Hbody. induction items as [|a items IH]; intros s g; simpl; [done|].
  unfold mbind, M_bind. rewrite Hbody. apply IH.
Qed.

Lemma for_in_app {A S} (body : S → A → M S) items1 items2 s g :
  for_in body (items1 ++ items2) s g =
    let '(s', g') := for_in body items1 s g in for_in body items2 s' g'.
Proof.
  revert s g. induction items1 as [|a items1 IH]; intros s g; simpl.
  - done.
  - unfold mbind, M_bind. destruct (body s a g) as [s' g']. apply IH.
Qed.

Lemma ddim_step_pure (self : SDFDiffusion) octree noise_feature pair g :
  ddim_step self octree noise_feature pair g =
    (ddim_next self octree noise_feature pair, g).
Proof.
  unfold ddim_step, ddim_next. destruct pair as [time time_next]. simpl.
  destruct (log_snr_to_alpha_sigma (log_snr self (item time))).
  by destruct (log_snr_to_alpha_sigma (log_snr self (item time_next))).
Qed.

Lemma ddim_sample_fold (self : SDFDiffusion) noise_feature octree steps
    truncated_index verbose g :
  ddim_sample self noise_feature octree steps truncated_index verbose g =
    (foldl (ddim_next self octree) noise_feature
       (get_sampling_timesteps self 1 steps), g).
Proof.
  unfold ddim_sample, tqdm.
  replace (if verbose then _ else _)
    with (get_sampling_timesteps self 1 steps) by by destruct verbose.
  apply for_in_pure. intros. apply ddim_step_pure.
Qed.

(** C3.  The DDIM sampler draws no random number: run from any two states
    of the generator, on the same initial field, octree, number of steps and
    network, it returns the same field, and it leaves the generator in the
    state it found it in. *)
Theorem ddim_sample_deterministic (self : SDFDiffusion) noise_feature octree
    steps truncated_index verbose (g1 g2 : generator) :
  (ddim_sample self noise_feature octree steps truncated_index verbose g1).1
    = (ddim_sample self noise_feature octree steps truncated_index verbose g2).1
  ∧ (ddim_sample self noise_feature octree steps truncated_index verbose g1).2
    = g1.
Proof. by rewrite !ddim_sample_fold. Qed.

(** C4.  One step of the DDIM loop, entry by entry.  The divisor of
    [pred_noise] is [sigma] clamped below at [1e-8]: it is at least [1e-8]
    and at least [sigma], hence positive, whatever the schedule gives.  Where
    the current field holds [v] and the denoiser predicts [p], with
    [x_start] the clamped prediction, the next field holds
    [x_start * alpha_next + pred_noise * sigma_next] for
    [pred_noise = (v - alpha * x_start) / max(sigma, 1e-8)]. *)
Theorem ddim_step_update (self : SDFDiffusion) octree (time time_next : vec)
    (noise_feature : field) i j v p g :
  entry noise_feature i j = Some v →
  entry (denoise_fn self noise_feature [log_snr self (item time)] octree None)
    i j = Some p →
  let log_snr_ := log_snr self (item time) in
  let log_snr_next := log_snr self (item time_next) in
  let alpha := (log_snr_to_alpha_sigma log_snr_).1 in
  let sigma := (log_snr_to_alpha_sigma log_snr_).2 in
  let alpha_next := (log_snr_to_alpha_sigma log_snr_next).1 in
  let sigma_next := (log_snr_to_alpha_sigma log_snr_next).2 in
  let x_start := clamp_scalar (-1) 1 p in
  let divisor := clamp_min 1e-8 sigma in
  let pred_noise := ((v - alpha * x_start) / divisor)%Q in
  (0 < divisor ∧ 1e-8 <= divisor ∧ sigma <= divisor
   ∧ (divisor = sigma ∨ divisor = 1e-8))%Q ∧
  entry (ddim_step self octree noise_feature (time, time_next) g).1 i j
    = Some (x_start * alpha_next + pred_noise * sigma_next)%Q.
Proof.
  intros Hv Hp. cbv zeta. split.
  - set (sigma := (log_snr_to_alpha_sigma (log_snr self (item time))).2).
    assert (1e-8 <= clamp_min 1e-8 sigma)%Q as Hfloor
      by apply clamp_min_floor.
    repeat split.
    + eapply Qlt_le_trans; [|exact Hfloor]. reflexivity.
    + exact Hfloor.
    + apply Q.le_max_l.
    + unfold clamp_min, Qmax, GenericMinMax.gmax.
      destruct (sigma ?= 1e-8)%Q; auto.
  - rewrite ddim_step_pure. unfold ddim_next. simpl.
    unfold add, mul_s, div_s, sub, s_mul, clamp.
    rewrite entry_tzip, !entry_tmap, entry_tzip, !entry_tmap, Hv, Hp. done.
Qed.

(** C10.  [ddim_sample] takes [truncated_index] and never reads it: two
    calls that differ in it only are the same computation. *)
Theorem ddim_sample_ignores_truncated_index (self : SDFDiffusion)
    noise_feature octree steps (truncated_index1 truncated_index2 : Q)
    verbose :
  ddim_sample self noise_feature octree steps truncated_index1 verbose
    = ddim_sample self noise_feature octree steps truncated_index2 verbose.
Proof. reflexivity. Qed.

End DdimFacts.

(** ** The time-step scheduler *)

Section SchedulerFacts.

Context `{Imports}.

Lemma length_linspace a b n : length (linspace a b n) = n.
Proof. unfold linspace. by rewrite length_fmap, length_seq. Qed.

Lemma lookup_linspace a b n i :
  (i < n)%nat →
  linspace a b n !! i =
    Some (a + inject_Z (Z.of_nat i)
              * ((b - a) / inject_Z (Z.of_nat n - 1)))%Q.
Proof.
  intros Hi. unfold linspace.
  by rewrite list_lookup_fmap, lookup_seq_lt.
Qed.

(** The [i]-th of the [N + 1] times is [1 - i / N]. *)
Lemma linspace_1_0 N i t :
  (0 < N)%nat → linspace 1 0 (N + 1) !! i = Some t →
  (t == 1 - inject_Z (Z.of_nat i) / inject_Z (Z.of_nat N))%Q.
Proof.
  intros HN Ht.
  assert (i < N + 1)%nat as Hi.
  { apply lookup_lt_Some in Ht. by rewrite length_linspace in Ht. }
  rewrite lookup_linspace in Ht by done. injection Ht as <-.
  replace (Z.of_nat (N + 1) - 1)%Z with (Z.of_nat N) by lia.
  field. intros Hz. apply (Qeq_bool_neq 0 1); [reflexivity|].
  unfold Qeq in *. simpl in *. lia.
Qed.

Lemma column_replicate k batch (row : vec) :
  column k (replicate batch row) = replicate batch (nth k row 0%Q).
Proof. unfold column. by rewrite fmap_replicate. Qed.

Lemma get_sampling_timesteps_lookup (self : SDFDiffusion) batch steps k t tn :
  linspace 1 0 (steps + 1) !! k = Some t →
  linspace 1 0 (steps + 1) !! S k = Some tn →
  get_sampling_timesteps self batch steps !! k
    = Some (replicate batch t, replicate batch tn).
Proof.
  intros Ht Htn.
  assert (k < steps)%nat as Hk.
  { apply lookup_lt_Some in Htn. rewrite length_linspace in Htn. lia. }
  unfold get_sampling_timesteps, stack_unbind, repeat_rows.
  rewrite list_lookup_fmap, lookup_seq_lt by lia. simpl.
  unfold but_last_col, from_1_col. rewrite !fmap_replicate, !column_replicate.
  rewrite !nth_lookup, lookup_take_lt, lookup_drop, Ht by
    (rewrite length_linspace; lia).
  simpl. by rewrite Htn.
Qed.

Lemma length_get_sampling_timesteps (self : SDFDiffusion) batch steps :
  length (get_sampling_timesteps self batch steps) = steps.
Proof.
  unfold get_sampling_timesteps, stack_unbind.
  rewrite length_fmap, length_seq. lia.
Qed.

(** The [k]-th pair holds the [k]-th time and the next one. *)
Lemma sampling_pair (self : SDFDiffusion) batch steps k :
  (k < steps)%nat →
  ∃ t tn, linspace 1 0 (steps + 1) !! k = Some t
          ∧ linspace 1 0 (steps + 1) !! S k = Some tn
          ∧ get_sampling_timesteps self batch steps !! k
            = Some (replicate batch t, replicate batch tn).
Proof.
  intros Hk.
  destruct (lookup_lt_is_Some_2 (linspace 1 0 (steps + 1)) k) as [t Ht];
    [rewrite length_linspace; lia|].
  destruct (lookup_lt_is_Some_2 (linspace 1 0 (steps + 1)) (S k)) as [tn Htn];
    [rewrite length_linspace; lia|].
  exists t, tn. repeat split; try done.
  by apply get_sampling_timesteps_lookup.
Qed.

(** C7.  For [N > 0] the scheduler lays out the [N + 1] times
    [1 - i / N], [i = 0 .. N], and returns exactly [N] pairs, the [k]-th
    pairing the [k]-th time with the next one (each repeated [batch]
    times).  The first pair's time is 1, the last pair's [time_next] is 0,
    and every [time_next] is strictly below its [time], which is the
    [time_next] of the pair before: the times strictly decrease. *)
Theorem get_sampling_timesteps_pairs (self : SDFDiffusion) (batch N : nat) :
  (0 < N)%nat →
  let times := linspace 1 0 (N + 1) in
  let pairs := get_sampling_timesteps self batch N in
  length times = (N + 1)%nat ∧
  (∀ i t, times !! i = Some t →
     (t == 1 - inject_Z (Z.of_nat i) / inject_Z (Z.of_nat N))%Q) ∧
  length pairs = N ∧
  (∀ k, (k < N)%nat →
     ∃ t tn, times !! k = Some t ∧ times !! S k = Some tn ∧
       pairs !! k = Some (replicate batch t, replicate batch tn) ∧
       (tn < t)%Q) ∧
  (∃ t tn, pairs !! 0%nat = Some (replicate batch t, tn) ∧ (t == 1)%Q) ∧
  (∃ t tn, pairs !! (N - 1)%nat = Some (t, replicate batch tn) ∧ (tn == 0)%Q).
Proof.
  intros HN. cbv zeta.
  assert (∀ k, (k < N + 1)%nat → ∃ t, linspace 1 0 (N + 1) !! k = Some t)
    as Hex.
  { intros k Hk. apply lookup_lt_is_Some_2. by rewrite length_linspace. }
  assert (0 < inject_Z (Z.of_nat N))%Q as HNq.
  { unfold Qlt. simpl. lia. }
  assert (¬ inject_Z (Z.of_nat N) == 0)%Q as HNz.
  { intros Hz. rewrite Hz in HNq. by apply Qlt_irrefl in HNq. }
  split; [apply length_linspace|].
  split; [intros i t; by apply linspace_1_0|].
  split; [apply length_get_sampling_timesteps|].
  split; [|split].
  - intros k Hk.
    destruct (Hex k) as [t Ht]; [lia|]. destruct (Hex (S k)) as [tn Htn]; [lia|].
    exists t, tn. repeat split; try done.
    + by apply get_sampling_timesteps_lookup.
    + rewrite (linspace_1_0 N k t), (linspace_1_0 N (S k) tn) by done.
      rewrite Nat2Z.inj_succ. unfold Z.succ. rewrite inject_Z_plus.
      apply Qplus_lt_r with (z := (inject_Z (Z.of_nat k) / inject_Z (Z.of_nat N)
                                   + 1 / inject_Z (Z.of_nat N) - 1)%Q).
      match goal with |- (?a < ?b)%Q =>
        assert (a == 0)%Q as -> by (field; done);
        assert (b == 1 / inject_Z (Z.of_nat N))%Q as -> by (field; done)
      end.
      apply Qlt_shift_div_l; [done|]. reflexivity.
  - destruct (Hex 0%nat) as [t Ht]; [lia|]. destruct (Hex 1%nat) as [tn Htn]; [lia|].
    exists t, (replicate batch tn). split.
    + by apply get_sampling_timesteps_lookup.
    + rewrite (linspace_1_0 N 0 t) by done. simpl. field. done.
  - destruct (Hex (N - 1)%nat) as [t Ht]; [lia|].
    destruct (Hex N) as [tn Htn]; [lia|].
    exists (replicate batch t), tn. split.
    + apply get_sampling_timesteps_lookup; [done|].
      by replace (S (N - 1)) with N by lia.
    + rewrite (linspace_1_0 N N tn) by done. field. done.
Qed.

End SchedulerFacts.

(** ** Whole runs of the DDPM sampler *)

Section DdpmRuns.

Context `{Imports}.

(** The run is the loop body applied to the pairs of the schedule, in
    order, whatever [verbose] is. *)
Lemma ddpm_sample_unfold (self : SDFDiffusion) noise_feature octree steps
    truncated_index verbose :
  ddpm_sample self noise_feature octree steps truncated_index verbose =
    for_in (ddpm_step self octree truncated_index)
      (get_sampling_timesteps self 1 steps) noise_feature.
Proof. by destruct verbose. Qed.

(** X1.  With a truncation index that is not negative (0 is the default),
    the last step of a run, whose [time_next] is 0, adds no noise: the run
    returns the posterior mean of the last step and the generator as the
    steps before left it. *)
Theorem ddpm_sample_last_step (self : SDFDiffusion) noise_feature octree steps
    truncated_index verbose g :
  (0 < steps)%nat → (0 <= truncated_index)%Q →
  let before :=
    for_in (ddpm_step self octree truncated_index)
      (take (steps - 1) (get_sampling_timesteps self 1 steps))
      noise_feature g in
  ∃ t tn : Q,
    get_sampling_timesteps self 1 steps !! (steps - 1)%nat = Some ([t], [tn])
    ∧ (tn == 0)%Q
    ∧ ddpm_sample self noise_feature octree steps truncated_index verbose g
      = (ddpm_mean self octree t tn before.1, before.2).
Proof.
  intros Hsteps Htrunc. cbv zeta.
  pose proof (length_get_sampling_timesteps self 1 steps) as Hlen.
  destruct (sampling_pair self 1 steps (steps - 1)%nat)
    as (t & tn & Ht & Htn & Hpair); [lia|].
  exists t, tn. split; [exact Hpair|].
  assert (tn == 0)%Q as Hzero.
  { rewrite (linspace_1_0 steps (S (steps - 1)) tn Hsteps Htn).
    replace (S (steps - 1)) with steps by lia. field.
    intros Hz. unfold Qeq in Hz. simpl in Hz. lia. }
  split; [exact Hzero|].
  rewrite ddpm_sample_unfold.
  rewrite <- (take_drop_middle _ _ _ Hpair) at 1.
  rewrite (drop_ge _ (S (steps - 1))) by lia.
  rewrite for_in_app.
  destruct (for_in _ (take (steps - 1) _) noise_feature g) as [x g'].
  cbn [for_in fst snd]. unfold mbind, M_bind.
  rewrite ddpm_step_truncated; [done|].
  cbn [item hd replicate]. by rewrite Hzero.
Qed.

End DdpmRuns.

(** ** Construction *)

Section InitFacts.

Context `{Imports}.

(** C8.  [__init__] with ["linear"] returns a model whose [log_snr] is
    [beta_linear_log_snr], with ["cosine"] one whose [log_snr] is
    [alpha_cosine_log_snr]; with any other string it raises [ValueError]
    there and then: it returns no model on which training or sampling could
    be called. *)
Theorem init_noise_schedule base_size upfactor base_channels verbose eps
    sdf_clip_value :
  let construct noise_schedule :=
    init base_size upfactor base_channels verbose eps noise_schedule
      sdf_clip_value in
  (∃ self, construct "linear"%string = Ok self
           ∧ log_snr self = beta_linear_log_snr) ∧
  (∃ self, construct "cosine"%string = Ok self
           ∧ log_snr self = alpha_cosine_log_snr) ∧
  (∀ noise_schedule : string,
     noise_schedule ≠ "linear"%string → noise_schedule ≠ "cosine"%string →
     construct noise_schedule
       = Raise (ValueError ("invalid noise schedule " ++ noise_schedule))
     ∧ ∀ self, construct noise_schedule ≠ Ok self).
Proof.
  cbv zeta. split; [|split].
  - eexists. split; reflexivity.
  - eexists. split; reflexivity.
  - intros s Hlin Hcos. unfold init.
    apply String.eqb_neq in Hlin, Hcos. rewrite Hlin, Hcos.
    split; [reflexivity | discriminate].
Qed.

End InitFacts.

(** ** The entry point *)

Section SampleFacts.

Context `{Imports}.

Lemma mapM_cons {A B} (f : A → M B) a l :
  mapM f (a :: l) = (y ← f a; k ← mapM f l; mret (y :: k)).
Proof. reflexivity. Qed.

Lemma mapM_const_length {A B} (m : M B) (l l' : list A) :
  length l = length l' → mapM (λ _, m) l = mapM (λ _, m) l'.
Proof.
  revert l'. induction l as [|a l IH]; intros [|a' l'] Hlen;
    try discriminate; [done|].
  injection Hlen as Hlen. by rewrite !mapM_cons, (IH l').
Qed.

(** The noise drawn by [randn_like] depends on the shape of its argument
    only. *)
Lemma randn_like_shape_only (x y : field) :
  shape x = shape y → randn_like x = randn_like y.
Proof.
  unfold randn_like, shape. revert y.
  induction x as [|r x IH]; intros [|r' y] Hs; try discriminate; [done|].
  injection Hs as Hr Hs. rewrite !mapM_cons, (IH y) by done.
  by rewrite (mapM_const_length (normal_ : M Q) r r').
Qed.

Lemma mapM_cons_run {A B} (f : A → M B) a l g :
  mapM f (a :: l) g =
    let '(y, g1) := f a g in
    let '(k, g2) := mapM f l g1 in (y :: k, g2).
Proof.
  rewrite mapM_cons. unfold mbind, M_bind, mret, M_ret.
  destruct (f a g) as [y g1]. by destruct (mapM f l g1).
Qed.

Lemma length_mapM_const {A B} (m : M B) (l : list A) g :
  length (mapM (λ _, m) l g).1 = length l.
Proof.
  revert g. induction l as [|a l IH]; intros g; [done|].
  rewrite mapM_cons_run. destruct (m g) as [b g1]. specialize (IH g1).
  destruct (mapM (λ _, m) l g1) as [bs g2]. simpl in *. by rewrite IH.
Qed.

Lemma shape_randn_like (x : field) g : shape (randn_like x g).1 = shape x.
Proof.
  unfold randn_like, shape. revert g.
  induction x as [|r x IH]; intros g; [done|].
  rewrite mapM_cons_run.
  pose proof (length_mapM_const (normal_ : M Q) r g) as Hr.
  destruct (mapM (λ _ : Q, normal_ : M Q) r g) as [b g1]. specialize (IH g1).
  destruct (mapM (mapM (λ _ : Q, normal_ : M Q)) x g1) as [bs g2].
  simpl in *. by f_equal.
Qed.

(** C9.  [sample] draws a noise field of the shape of [data], hands it with
    [octree], [steps] and [truncated_index] to [ddpm_sample] when
    [use_ddim] is false and to [ddim_sample] when it is true, and returns
    what the sampler returns.  Of [data] only the shape is used: another
    field of that shape gives the same result. *)
Theorem sample_dispatch (self : SDFDiffusion) (data : field) octree steps
    truncated_index verbose g :
  let noise_feature := (randn_like data g).1 in
  let g' := (randn_like data g).2 in
  shape noise_feature = shape data ∧
  sample self data octree false steps truncated_index verbose g
    = ddpm_sample self noise_feature octree steps truncated_index verbose g' ∧
  sample self data octree true steps truncated_index verbose g
    = ddim_sample self noise_feature octree steps truncated_index verbose g' ∧
  ∀ (data' : field) use_ddim,
    shape data' = shape data →
    sample self data' octree use_ddim steps truncated_index verbose g
      = sample self data octree use_ddim steps truncated_index verbose g.
Proof.
  cbv zeta. split; [apply shape_randn_like|].
  split; [|split].
  - unfold sample. simpl. unfold mbind, M_bind.
    by destruct (randn_like data g).
  - unfold sample. simpl. unfold mbind, M_bind.
    by destruct (randn_like data g).
  - intros data' use_ddim Hs. unfold sample.
    by rewrite (randn_like_shape_only data' data).
Qed.

End SampleFacts.

(** ** The training loss *)

Section MaskFacts.

Context {A : Type}.
Implicit Types (x : list A) (ids : list nat).

Lemma index_mask_cons r x d ids i :
  index_mask (r :: x) (eq_mask (d :: ids) i) =
    if Nat.eqb d i then r :: index_mask x (eq_mask ids i)
    else index_mask x (eq_mask ids i).
Proof. reflexivity. Qed.

Lemma index_mask_nil_l ids i : index_mask (@nil A) (eq_mask ids i) = [].
Proof. by destruct ids. Qed.

(** A mask picks as many rows from two lists of one length. *)
Lemma length_index_mask {B} x (y : list B) mask :
  length x = length y →
  length (index_mask x mask) = length (index_mask y mask).
Proof.
  revert y mask. induction x as [|r x IH]; intros [|s y] [|m mask] Hlen;
    simplify_eq/=; try done.
  destruct m; simpl; by rewrite (IH y mask).
Qed.

Lemma index_mask_app x1 x2 ids1 ids2 i :
  length x1 = length ids1 →
  index_mask (x1 ++ x2) (eq_mask (ids1 ++ ids2) i) =
    index_mask x1 (eq_mask ids1 i) ++ index_mask x2 (eq_mask ids2 i).
Proof.
  revert ids1. induction x1 as [|r x1 IH]; intros [|d ids1] Hlen;
    try discriminate; [done|].
  injection Hlen as Hlen. rewrite <- !app_comm_cons.
  rewrite !index_mask_cons, IH by done. by destruct (Nat.eqb d i).
Qed.

Lemma index_mask_none x ids i :
  Forall (λ d, d ≠ i) ids → index_mask x (eq_mask ids i) = [].
Proof.
  revert x. induction ids as [|d ids IH]; intros [|r x] Hne; try done.
  rewrite index_mask_cons. inversion_clear Hne as [|?? Hd Hids].
  destruct (Nat.eqb_spec d i); [done|]. by apply IH.
Qed.

(** The mask of element [i] is the filter on the ids. *)
Lemma index_mask_filter x ids i :
  length x = length ids →
  index_mask x (eq_mask ids i) = snd <$> filter (λ r, r.1 = i) (zip ids x).
Proof.
  revert ids. induction x as [|r x IH]; intros [|d ids] Hlen;
    try discriminate; [done|].
  injection Hlen as Hlen. rewrite index_mask_cons. simpl zip.
  rewrite filter_cons. simpl.
  destruct (Nat.eqb_spec d i); destruct (decide (d = i)); try done;
    simpl; by rewrite IH.
Qed.

Lemma by_element_S x ids b :
  by_element x ids (S b) =
    by_element x ids b ++ index_mask x (eq_mask ids b).
Proof.
  unfold by_element. rewrite seq_S, fmap_app, concat_app. simpl.
  by rewrite app_nil_r.
Qed.

Lemma length_by_element x ids b :
  length x = length ids →
  length (by_element x ids b) = length (filter (λ d, d < b)%nat ids).
Proof.
  intros Hlen. induction b as [|b IH].
  - simpl. symmetry. apply length_zero_iff_nil.
    clear. induction ids as [|d ids IH]; [done|].
    rewrite filter_cons. destruct (decide (d < 0)%nat); [lia|done].
  - rewrite by_element_S, length_app, IH. clear IH.
    revert ids Hlen. induction x as [|r x IH]; intros [|d ids] Hlen;
      try discriminate; [done|].
    injection Hlen as Hlen.
    rewrite index_mask_cons, !filter_cons. specialize (IH ids Hlen).
    destruct (Nat.eqb_spec d b); destruct (decide (d < b)%nat);
      destruct (decide (d < S b)%nat); simpl; lia.
Qed.

Lemma length_by_element_all x ids b :
  length x = length ids → Forall (λ d, d < b)%nat ids →
  length (by_element x ids b) = length x.
Proof.
  intros Hlen Hb. rewrite length_by_element by done.
  rewrite Hlen. f_equal. clear Hlen.
  induction Hb as [|d ids Hd Hb IH]; [done|].
  rewrite filter_cons. destruct (decide (d < b)%nat); [|done]. by f_equal.
Qed.

End MaskFacts.

(** The rows of element [i] all carry the id [i]. *)
Lemma index_mask_ids (ids : list nat) i :
  Forall (λ d, d = i) (index_mask ids (eq_mask ids i)).
Proof.
  induction ids as [|d ids IH]; [constructor|].
  rewrite index_mask_cons. destruct (Nat.eqb_spec d i); [by constructor|done].
Qed.


Section SortedFacts.

Context {A : Type}.
Implicit Types (x : list A) (ids : list nat).

Lemma concat_fmap_nil {B} (f : B → list A) (l : list B) :
  (∀ i, i ∈ l → f i = []) → concat (f <$> l) = [].
Proof.
  induction l as [|i l IH]; intros Hf; [done|].
  simpl. rewrite Hf by left. apply IH. intros j Hj. apply Hf. by right.
Qed.

(** When the ids never decrease, the masks of the elements [a], [a + 1],
    ... cut the rows into consecutive runs. *)
Lemma blocks_sorted x ids :
  length x = length ids → StronglySorted le ids →
  ∀ a n, Forall (λ d, a ≤ d < a + n)%nat ids →
    concat ((λ i, index_mask x (eq_mask ids i)) <$> seq a n) = x.
Proof.
  revert x. induction ids as [|d ids IH]; intros [|r x] Hlen Hsorted a n Hin;
    try discriminate.
  - apply concat_fmap_nil. intros i _. done.
  - injection Hlen as Hlen.
    apply StronglySorted_inv in Hsorted as [Hsorted Hd].
    inversion_clear Hin as [|?? [Hda Hdn] Hin'].
    replace n with ((d - a) + S (a + n - S d))%nat by lia.
    rewrite seq_app, fmap_app, concat_app.
    replace (a + (d - a))%nat with d by lia.
    rewrite concat_fmap_nil.
    2:{ intros i [Hai Hid]%elem_of_seq. apply index_mask_none.
        constructor; [lia|].
        eapply Forall_impl; [exact Hd|]. simpl. intros; lia. }
    rewrite app_nil_l, <- cons_seq, fmap_cons. cbn [concat].
    rewrite index_mask_cons, Nat.eqb_refl, <- app_comm_cons. f_equal.
    etrans; [|apply (IH x Hlen Hsorted d (S (a + n - S d)))].
    2:{ apply Forall_forall. intros e He.
        rewrite Forall_forall in Hd, Hin'.
        specialize (Hd e He). specialize (Hin' e He). lia. }
    rewrite <- cons_seq, fmap_cons. cbn [concat]. f_equal. f_equal.
    apply list_fmap_ext. intros k i [-> Hk]%lookup_seq.
    rewrite index_mask_cons. by destruct (Nat.eqb_spec d (S d + k)); [lia|].
Qed.

Lemma by_element_sorted x ids b :
  length x = length ids → Sorted le ids → Forall (λ d, d < b)%nat ids →
  by_element x ids b = x.
Proof.
  intros Hlen Hsorted Hb. apply blocks_sorted; [done| |].
  - apply Sorted_StronglySorted; [|done]. intros ???; lia.
  - eapply Forall_impl; [exact Hb|]. simpl. intros; lia.
Qed.

End SortedFacts.

Section CorruptionFacts.

Context `{Imports}.

Lemma mapM_app_run {A B} (f : A → M B) l1 l2 g :
  mapM f (l1 ++ l2) g =
    let '(k1, g1) := mapM f l1 g in
    let '(k2, g2) := mapM f l2 g1 in (k1 ++ k2, g2).
Proof.
  revert g. induction l1 as [|a l1 IH]; intros g.
  - simpl. unfold mret, M_ret. by destruct (mapM f l2 g).
  - rewrite <- app_comm_cons, !mapM_cons_run. destruct (f a g) as [y g1].
    rewrite IH. destruct (mapM f l1 g1) as [k1 g2].
    by destruct (mapM f l2 g2).
Qed.

Lemma randn_like_app (x1 x2 : field) g :
  randn_like (x1 ++ x2) g =
    let '(n1, g1) := randn_like x1 g in
    let '(n2, g2) := randn_like x2 g1 in (n1 ++ n2, g2).
Proof. apply mapM_app_run. Qed.

Lemma length_randn_like (x : field) g : length (randn_like x g).1 = length x.
Proof.
  pose proof (shape_randn_like x g) as Hs. unfold shape in Hs.
  apply (f_equal length) in Hs. by rewrite !length_fmap in Hs.
Qed.

Lemma corrupt_in_place_app x1 x2 ids1 ids2 noise_level n1 n2 :
  length x1 = length ids1 → length x1 = length n1 →
  corrupt_in_place (x1 ++ x2) (ids1 ++ ids2) noise_level (n1 ++ n2) =
    corrupt_in_place x1 ids1 noise_level n1
    ++ corrupt_in_place x2 ids2 noise_level n2.
Proof.
  intros Hids Hn. unfold corrupt_in_place.
  rewrite (zip_with_app pair) by done. apply zip_with_app.
  rewrite length_zip_with. lia.
Qed.

(** The rows of one batch element, noised as the loop does it, are the rows
    noised in place. *)
Lemma corrupt_block (feature : field) ids i noise_level noise :
  Forall (λ d, d = i) ids → length feature = length ids →
  add (mul_s feature (log_snr_to_alpha_sigma (nth i noise_level 0%Q)).1)
      (s_mul (log_snr_to_alpha_sigma (nth i noise_level 0%Q)).2 noise)
    = corrupt_in_place feature ids noise_level noise.
Proof.
  unfold add, tzip, mul_s, s_mul, tmap, corrupt_in_place.
  intros Hids. revert feature noise.
  induction Hids as [|d ids -> Hids IH]; intros [|r feature] noise Hlen;
    try discriminate; [done|].
  injection Hlen as Hlen. destruct noise as [|nr noise]; [done|].
  cbn [fmap list_fmap zip zip_with]. f_equal; [|by apply IH].
  unfold corrupt_row. cbn [fst snd].
  destruct (log_snr_to_alpha_sigma (nth i noise_level 0%Q)) as [alpha sigma].
  cbn [fst snd]. by rewrite zip_with_fmap_l, zip_with_fmap_r.
Qed.

Section Loop.

Variables (x_start : field) (batch_id : list nat) (noise_level : vec).
Hypothesis Hlen : length x_start = length batch_id.

(** The body of the loop that fills [x_t]. *)
Let body (i : nat) : M field :=
  let feature := index_mask x_start (eq_mask batch_id i) in
  let '(alpha, sigma) := log_snr_to_alpha_sigma (nth i noise_level 0%Q) in
  noise ← randn_like feature;
  mret (add (mul_s feature alpha) (s_mul sigma noise)).

Lemma body_run i g :
  body i g =
    (corrupt_in_place (index_mask x_start (eq_mask batch_id i))
       (index_mask batch_id (eq_mask batch_id i)) noise_level
       (randn_like (index_mask x_start (eq_mask batch_id i)) g).1,
     (randn_like (index_mask x_start (eq_mask batch_id i)) g).2).
Proof.
  unfold body. rewrite <- (corrupt_block _ _ i).
  - destruct (log_snr_to_alpha_sigma (nth i noise_level 0%Q)).
    unfold mbind, M_bind, mret, M_ret.
    by destruct (randn_like _ g).
  - apply index_mask_ids.
  - by apply length_index_mask.
Qed.

Lemma loop_run (indices : list nat) g :
  let X := concat ((λ i, index_mask x_start (eq_mask batch_id i)) <$> indices) in
  let I := concat ((λ i, index_mask batch_id (eq_mask batch_id i)) <$> indices) in
  (concat (mapM body indices g).1, (mapM body indices g).2) =
    (corrupt_in_place X I noise_level (randn_like X g).1, (randn_like X g).2).
Proof.
  revert g. induction indices as [|i indices IH]; intros g; [done|].
  cbv zeta in *. rewrite mapM_cons_run, body_run. cbn [fmap list_fmap concat].
  rewrite randn_like_app.
  pose proof (length_randn_like (index_mask x_start (eq_mask batch_id i)) g)
    as Hn.
  destruct (randn_like (index_mask x_start (eq_mask batch_id i)) g)
    as [n1 g1].
  cbn [fst snd]. specialize (IH g1).
  destruct (mapM body indices g1) as [k g2].
  injection IH as IHx IHg. cbn [fst snd concat] in *.
  destruct (randn_like _ g1) as [n2 g3]. cbn [fst snd] in *.
  rewrite corrupt_in_place_app, IHx, IHg; [done| |done].
  by apply length_index_mask.
Qed.

Lemma training_loss_x_t_run batch_size g :
  let X := by_element x_start batch_id batch_size in
  let I := by_element batch_id batch_id batch_size in
  training_loss_x_t x_start batch_id noise_level batch_size g =
    (corrupt_in_place X I noise_level (randn_like X g).1, (randn_like X g).2).
Proof.
  cbv zeta. unfold by_element.
  etrans; [|exact (loop_run (seq 0 batch_size) g)].
  assert (training_loss_x_t x_start batch_id noise_level batch_size g =
          (let '(x_t, g') := mapM body (seq 0 batch_size) g in
           (concat x_t, g'))) as -> by reflexivity.
  by destruct (mapM body (seq 0 batch_size) g).
Qed.

End Loop.

End CorruptionFacts.

Section ForwardCorruption.

Context `{Imports}.

Lemma shape_corrupt_in_place (x : field) ids noise_level (noise : field) :
  length x = length ids → shape noise = shape x →
  shape (corrupt_in_place x ids noise_level noise) = shape x.
Proof.
  unfold corrupt_in_place, shape. revert ids noise.
  induction x as [|r x IH]; intros [|d ids] [|nr noise] Hlen Hs;
    try discriminate; [done|].
  injection Hlen as Hlen. injection Hs as Hr Hs.
  cbn [zip zip_with fmap list_fmap]. f_equal; [|by apply IH].
  unfold corrupt_row. cbn [fst snd].
  destruct (log_snr_to_alpha_sigma (nth d noise_level 0%Q)).
  rewrite length_zip_with. lia.
Qed.

(** C5, as the code has it.  With one id below [batch_size] for every row of
    [x_start], the loop noises the rows batch element after batch element:
    the result is the rows of [x_start] in that order ([by_element]), each as
    [row * alpha + sigma * noise] with a noise row of its own and the
    [(alpha, sigma)] of the noise level of its own batch element.  It has as
    many rows as [x_start].  When the ids never decrease (the rows of every
    element are contiguous and the elements come in batch order), that order
    is the order of [x_start]: row [k] of the result is row [k] of [x_start]
    noised in place. *)
Theorem training_loss_x_t_rows (x_start : field) (batch_id : list nat)
    (noise_level : vec) (batch_size : nat) g :
  length x_start = length batch_id →
  Forall (λ d, d < batch_size)%nat batch_id →
  let x_t :=
    (training_loss_x_t x_start batch_id noise_level batch_size g).1 in
  let rows := by_element x_start batch_id batch_size in
  let ids := by_element batch_id batch_id batch_size in
  x_t = corrupt_in_place rows ids noise_level (randn_like rows g).1 ∧
  length x_t = length x_start ∧
  (Sorted le batch_id →
   x_t = corrupt_in_place x_start batch_id noise_level
           (randn_like x_start g).1).
Proof.
  intros Hlen Hb. cbv zeta.
  rewrite training_loss_x_t_run by done. cbn [fst].
  split; [done|]. split.
  - pose proof (shape_corrupt_in_place
                  (by_element x_start batch_id batch_size)
                  (by_element batch_id batch_id batch_size) noise_level
                  (randn_like (by_element x_start batch_id batch_size) g).1)
      as Hs.
    unfold shape in Hs. apply (f_equal length) in Hs.
    + rewrite !length_fmap in Hs. rewrite Hs.
      by apply length_by_element_all.
    + rewrite !length_by_element_all; done.
    + apply shape_randn_like.
  - intros Hsorted. by rewrite !by_element_sorted.
Qed.

End ForwardCorruption.

(** ** The loss per batch element *)

Section LossFacts.

Lemma sum_app xs ys : (sum (xs ++ ys) == sum xs + sum ys)%Q.
Proof.
  induction xs as [|x xs IH]; simpl.
  - by rewrite Qplus_0_l.
  - rewrite IH. apply Qplus_assoc.
Qed.

Lemma sum_nonneg xs : Forall (λ v, 0 <= v)%Q xs → (0 <= sum xs)%Q.
Proof.
  induction 1 as [|x xs Hx _ IH]; simpl; [apply Qle_refl|].
  rewrite <- (Qplus_0_l 0). by apply Qplus_le_compat.
Qed.

Lemma square_nonneg v : (0 <= v ^ 2)%Q.
Proof.
  simpl. destruct (Qlt_le_dec v 0) as [Hneg|Hpos].
  - setoid_replace (v * v)%Q with ((- v) * (- v))%Q using relation Qeq by ring.
    apply Qmult_le_0_compat; lra.
  - by apply Qmult_le_0_compat.
Qed.

(** Filling [loss] entry by entry over [range(batch_size)]. *)
Lemma fill_lookup {A} (f : nat → A) (l : list A) n k :
  (n ≤ length l)%nat →
  foldl (λ acc i, <[i := f i]> acc) l (seq 0 n) !! k =
    if decide (k < n)%nat then Some (f k) else l !! k.
Proof.
  induction n as [|n IH]; intros Hn.
  - simpl. destruct (decide (k < 0)%nat); [lia|done].
  - rewrite seq_S, foldl_app. simpl. rewrite list_lookup_insert.
    assert (length (foldl (λ acc i, <[i := f i]> acc) l (seq 0 n))
            = length l) as Hlen.
    { clear. generalize (seq 0 n). intros idx. revert l.
      induction idx as [|i idx IH]; intros l; simpl; [done|].
      by rewrite IH, length_insert. }
    rewrite Hlen, IH by lia.
    destruct (decide (n = k ∧ (n < length l)%nat)) as [[-> _]|Hne].
    + destruct (decide (k < S k)%nat); [done|lia].
    + destruct (decide (k < n)%nat); destruct (decide (k < S n)%nat);
        try done; lia.
Qed.

Lemma length_training_loss_fill sdf_loss batch_id batch_size :
  length (training_loss_fill sdf_loss batch_id batch_size) = batch_size.
Proof.
  unfold training_loss_fill. generalize (seq 0 batch_size) at 1.
  intros idx.
  assert (∀ l : list (option Q),
            length (foldl (λ loss i,
              <[i := tmean (index_mask sdf_loss (eq_mask batch_id i))]> loss)
              l idx) = length l) as Hlen.
  { induction idx as [|i idx IH]; intros l; simpl; [done|].
    by rewrite IH, length_insert. }
  by rewrite Hlen, length_replicate.
Qed.

Lemma training_loss_fill_lookup sdf_loss batch_id batch_size i :
  (i < batch_size)%nat →
  training_loss_fill sdf_loss batch_id batch_size !! i =
    Some (tmean (index_mask sdf_loss (eq_mask batch_id i))).
Proof.
  intros Hi. unfold training_loss_fill.
  rewrite (fill_lookup
             (λ i, tmean (index_mask sdf_loss (eq_mask batch_id i))))
    by (by rewrite length_replicate).
  by destruct (decide (i < batch_size)%nat).
Qed.

Lemma fmap_zip_with_fuse {A B C D} (f : C → D) (g : A → B → C) l k :
  f <$> zip_with g l k = zip_with (λ a b, f (g a b)) l k.
Proof.
  revert k. induction l as [|a l IH]; intros [|b k]; try done.
  cbn [zip_with fmap list_fmap]. f_equal. apply IH.
Qed.

(** The squared error of one pair of rows. *)
Lemma pow2_sub_cons p pred x x_start :
  pow2 (sub (p :: pred) (x :: x_start)) =
    zip_with (λ a b, (a - b) ^ 2)%Q p x :: pow2 (sub pred x_start).
Proof.
  unfold pow2, sub, tmap, tzip. cbn [zip_with fmap list_fmap]. f_equal.
  apply fmap_zip_with_fuse.
Qed.

(** The selection the loop averages over holds the squared errors of the
    rows of element [i]: same sum, same number of entries. *)
Lemma masked_squares (pred x_start : field) batch_id i :
  shape pred = shape x_start → length x_start = length batch_id →
  let selected :=
    concat (index_mask (pow2 (sub pred x_start)) (eq_mask batch_id i)) in
  let rows := element_rows pred x_start batch_id i in
  (sum selected ==
     sum ((λ r, sum (zip_with (λ p x, (p - x) ^ 2) r.1 r.2)) <$> rows))%Q
  ∧ length selected = length (concat (fst <$> rows))
  ∧ Forall (λ v, 0 <= v)%Q selected.
Proof.
  cbv zeta. unfold element_rows, shape. revert pred x_start.
  induction batch_id as [|d ids IH]; intros [|p pred] [|x x_start] Hs Hlen;
    try discriminate.
  - split; [reflexivity|]. split; [reflexivity|constructor].
  - injection Hs as Hp Hs. injection Hlen as Hlen.
    destruct (IH pred x_start Hs Hlen) as (IHsum & IHlen & IHpos).
    rewrite pow2_sub_cons, index_mask_cons. cbn [zip zip_with].
    rewrite filter_cons. cbn [fst].
    destruct (Nat.eqb_spec d i) as [->|Hne].
    + destruct (decide (i = i)) as [_|?]; [|done].
      cbn [concat fmap list_fmap snd fst sum foldr].
      split; [|split].
      * rewrite sum_app, IHsum. reflexivity.
      * rewrite !length_app, IHlen, length_zip_with. lia.
      * apply Forall_app. split; [|done].
        clear. revert x. induction p as [|a p IH]; intros [|b x];
          cbn [zip_with]; constructor; [apply square_nonneg | apply IH].
    + destruct (decide (d = i)) as [?|_]; [done|]. by repeat split.
Qed.

End LossFacts.

Section TrainingLoss.

Context `{Imports}.

Lemma Forall_index_mask {A} (P : A → Prop) (x : list A) mask :
  Forall P x → Forall P (index_mask x mask).
Proof.
  intros Hx. revert mask. induction Hx as [|r x Hr _ IH]; intros [|m mask];
    try constructor.
  simpl. destruct m; [by constructor | apply IH].
Qed.

Lemma Forall_by_element {A} (P : A → Prop) (x : list A) ids b :
  Forall P x → Forall P (by_element x ids b).
Proof.
  intros Hx. unfold by_element. apply Forall_concat, Forall_fmap.
  apply Forall_forall. intros i _. by apply Forall_index_mask.
Qed.

Lemma shape_rectangular (x : field) C :
  Forall (λ row, length row = C) x → shape x = replicate (length x) C.
Proof.
  unfold shape. induction 1 as [|r x Hr _ IH]; [done|].
  cbn [fmap list_fmap length replicate]. by rewrite Hr, <- IH.
Qed.

Lemma rectangular_shape (x : field) n C :
  shape x = replicate n C → Forall (λ row, length row = C) x.
Proof.
  unfold shape. revert n. induction x as [|r x IH]; intros [|n] Hs;
    try discriminate; [constructor|].
  injection Hs as Hr Hs. constructor; [done|]. by apply (IH n).
Qed.

(** The element [i] has a row when [i] is among the ids. *)
Lemma index_mask_elem (ids : list nat) i :
  i ∈ ids → (0 < length (index_mask ids (eq_mask ids i)))%nat.
Proof.
  induction 1 as [i ids|i d ids _ IH]; rewrite index_mask_cons.
  - rewrite Nat.eqb_refl. simpl. lia.
  - destruct (Nat.eqb d i); simpl; lia.
Qed.

Lemma training_loss_run (self : SDFDiffusion) (x_start : field) octree g :
  let b := batch_size octree in
  let ids := batch_id octree (depth octree) true in
  let noise_level := log_snr self <$> (zeros_uniform_ b 0 1 g).1 in
  let x_t := training_loss_x_t x_start ids noise_level b
               (zeros_uniform_ b 0 1 g).2 in
  let pred := denoise_fn self x_t.1 noise_level octree None in
  training_loss self x_start octree g =
    (training_loss_fill (pow2 (sub pred x_start)) ids b, x_t.2).
Proof.
  cbv zeta. unfold training_loss. unfold mbind at 1, M_bind at 1.
  destruct (zeros_uniform_ (batch_size octree) 0 1 g) as [times g1].
  cbn [fst snd]. unfold mbind at 1, M_bind at 1.
  by destruct (training_loss_x_t x_start _ _ _ g1) as [x_t g2].
Qed.

(** C6.  On an [N] by [C] field, [C > 0], with one id below [batch_size]
    for every row and at least one row for every batch element, and a
    network that returns a field of the shape of its input, [training_loss]
    returns a list of exactly [batch_size] entries.  The entry of element
    [i] is a number (not nan), equal to the mean of the squared error
    [(pred - x_start)^2] over the rows of that element, and it is not
    negative. *)
Theorem training_loss_per_element (self : SDFDiffusion) (x_start : field)
    octree (C : nat) g :
  let b := batch_size octree in
  let ids := batch_id octree (depth octree) true in
  let noise_level := log_snr self <$> (zeros_uniform_ b 0 1 g).1 in
  let x_t :=
    (training_loss_x_t x_start ids noise_level b
       (zeros_uniform_ b 0 1 g).2).1 in
  let pred := denoise_fn self x_t noise_level octree None in
  let loss := (training_loss self x_start octree g).1 in
  length x_start = length ids →
  Forall (λ d, d < b)%nat ids →
  (∀ i, (i < b)%nat → i ∈ ids) →
  (0 < C)%nat →
  Forall (λ row, length row = C) x_start →
  shape pred = shape x_t →
  length loss = b ∧
  ∀ i, (i < b)%nat →
    ∃ v : Q, loss !! i = Some (Some v)
             ∧ (v == element_mse pred x_start ids i)%Q
             ∧ (0 <= v)%Q.
Proof.
  cbv zeta. intros Hlen Hb Hrows HC Hrect Hnet.
  rewrite training_loss_run. cbn [fst].
  set (b := batch_size octree) in *.
  set (ids := batch_id octree (depth octree) true) in *.
  set (noise_level := log_snr self <$> (zeros_uniform_ b 0 1 g).1) in *.
  set (g1 := (zeros_uniform_ b 0 1 g).2) in *.
  set (x_t := (training_loss_x_t x_start ids noise_level b g1).1) in *.
  set (pred := denoise_fn self x_t noise_level octree None) in *.
  split; [apply length_training_loss_fill|].
  (* the prediction has the shape of [x_start] *)
  assert (shape pred = shape x_start) as Hshape.
  { rewrite Hnet. unfold x_t. rewrite training_loss_x_t_run by done.
    cbn [fst]. rewrite shape_corrupt_in_place.
    - rewrite (shape_rectangular _ C) by (by apply Forall_by_element).
      rewrite (shape_rectangular x_start C) by done.
      by rewrite length_by_element_all.
    - rewrite !length_by_element_all; done.
    - apply shape_randn_like. }
  intros i Hi. rewrite training_loss_fill_lookup by done.
  destruct (masked_squares pred x_start ids i Hshape Hlen)
    as (Hsum & Hcount & Hpos).
  (* the selection has an entry *)
  assert (0 < length (concat (index_mask (pow2 (sub pred x_start))
                                (eq_mask ids i))))%nat as Hsome.
  { assert (shape (pow2 (sub pred x_start)) = replicate (length x_start) C)
      as Hsq.
    { unfold pow2, sub. rewrite shape_tmap, shape_tzip, Hshape by done.
      by apply shape_rectangular. }
    pose proof (rectangular_shape _ _ _ Hsq) as Hsqrect.
    apply (Forall_index_mask _ _ (eq_mask ids i)) in Hsqrect.
    assert (length (pow2 (sub pred x_start)) = length ids) as Hsqlen.
    { apply (f_equal length) in Hsq. unfold shape in Hsq.
      rewrite length_fmap, length_replicate in Hsq. by rewrite Hsq. }
    pose proof (index_mask_elem ids i (Hrows i Hi)) as Hrow.
    rewrite <- (length_index_mask _ _ (eq_mask ids i) Hsqlen) in Hrow.
    destruct (index_mask (pow2 (sub pred x_start)) (eq_mask ids i))
      as [|r rest]; [simpl in Hrow; lia|].
    inversion_clear Hsqrect as [|?? Hr _].
    cbn [concat]. rewrite length_app. lia. }
  unfold tmean.
  destruct (concat (index_mask (pow2 (sub pred x_start)) (eq_mask ids i)))
    as [|q qs] eqn:Hsel; [simpl in Hsome; lia|].
  eexists. split; [reflexivity|].
  assert (0 < inject_Z (Z.of_nat (length (q :: qs))))%Q as Hden.
  { unfold Qlt. simpl. lia. }
  split.
  - unfold element_mse. cbv zeta. rewrite <- Hcount, <- Hsum. reflexivity.
  - apply Qle_shift_div_l; [done|]. rewrite Qmult_0_l. by apply sum_nonneg.
Qed.

End TrainingLoss.

(** ** The theorems at work in the concrete setting *)

Section DemoRuns.

Import Demo.

(** One DDPM step from time 1 to time 1/2: the entry [(0, 1)] of the
    posterior mean is 52. *)
Lemma ddpm_step_posterior_demo :
  entry demo_field 0 1 = Some 2%Q ∧
  ∃ m : Q,
    entry (ddpm_mean demo_model demo_octree 1 0.5 demo_field) 0 1 = Some m
    ∧ (m == 52)%Q.
Proof.
  split; [reflexivity|].
  destruct (@ddpm_step_posterior demo_imports demo_model demo_octree
              [1%Q] [0.5%Q] demo_field 0 1 2%Q (2 / 2 + (4 - 8 * 1))%Q
              eq_refl eq_refl) as (_ & Hmean & _).
  eexists. split; [exact Hmean | reflexivity].
Defined.

(** A step to time 1/2 above the truncation index 0 draws the six noise
    values of the field; the step to time 0 draws none. *)
Lemma ddpm_step_truncation_demo :
  (ddpm_step demo_model demo_octree 0 demo_field ([1%Q], [0.5%Q]) 7%nat).2
    = 13%nat ∧
  ddpm_step demo_model demo_octree 0 demo_field ([0.5%Q], [0%Q]) 7%nat
    = (ddpm_mean demo_model demo_octree 0.5 0 demo_field, 7%nat).
Proof.
  split.
  - rewrite (proj1 (@ddpm_step_truncation demo_imports demo_model
                      demo_octree 0 demo_field [1%Q] [0.5%Q] 7%nat)).
    + reflexivity.
    + reflexivity.
  - apply (proj2 (@ddpm_step_truncation demo_imports demo_model demo_octree
                    0 demo_field [0.5%Q] [0%Q] 7%nat)).
    discriminate.
Defined.

(** One DDIM step from time 1 to time 1/2 at the entry [(0, 1)]. *)
Lemma ddim_step_update_demo :
  ∃ next : Q,
    entry (ddim_step demo_model demo_octree demo_field
             ([1%Q], [0.5%Q]) 7%nat).1 0 1 = Some next
    ∧ (next == 2 / 3)%Q.
Proof.
  destruct (@ddim_step_update demo_imports demo_model demo_octree
              [1%Q] [0.5%Q] demo_field 0 1 2%Q (2 / 2 + (4 - 8 * 1))%Q
              7%nat eq_refl eq_refl) as (_ & Hnext).
  eexists. split; [exact Hnext | reflexivity].
Defined.

(** Four steps: four pairs, from time 1 down to [time_next] 0. *)
Lemma get_sampling_timesteps_pairs_demo :
  length (get_sampling_timesteps demo_model 1 4) = 4%nat ∧
  (∃ t tn, get_sampling_timesteps demo_model 1 4 !! 0%nat
             = Some (replicate 1 t, tn) ∧ (t == 1)%Q) ∧
  (∃ t tn, get_sampling_timesteps demo_model 1 4 !! 3%nat
             = Some (t, replicate 1 tn) ∧ (tn == 0)%Q).
Proof.
  destruct (get_sampling_timesteps_pairs demo_model 1 4
              (Nat.lt_0_succ 3)) as (_ & _ & Hlen & _ & Hfirst & Hlast).
  exact (conj Hlen (conj Hfirst Hlast)).
Defined.

(** An unknown schedule name. *)
Lemma init_noise_schedule_demo :
  init_default "quadratic"
    = Raise (ValueError "invalid noise schedule quadratic").
Proof.
  destruct (@init_noise_schedule demo_imports 32 2 128 false 1e-6%Q 0.05%Q)
    as (_ & _ & Hother).
  apply (Hother "quadratic"%string); discriminate.
Defined.

(** Another field of the shape of [demo_field] gives the same sample. *)
Lemma sample_dispatch_demo :
  sample demo_model [[0; 0]; [0; 0]; [0; 0]]%Q demo_octree false 2 0 false
    3%nat
  = sample demo_model demo_field demo_octree false 2 0 false 3%nat.
Proof.
  destruct (@sample_dispatch demo_imports demo_model demo_field demo_octree
              2 0%Q false 3%nat) as (_ & _ & _ & Hshape).
  apply Hshape. reflexivity.
Defined.

(** The theorem at work on an octree whose rows come in batch order. *)
Lemma training_loss_x_t_rows_demo :
  length demo_field = length [0; 0; 1]%nat ∧
  Forall (λ d, d < 2)%nat [0; 0; 1]%nat ∧
  Sorted le [0; 0; 1]%nat ∧
  (training_loss_x_t demo_field [0; 0; 1]%nat [0; 5]%Q 2 0%nat).1 =
    corrupt_in_place demo_field [0; 0; 1]%nat [0; 5]%Q
      (randn_like demo_field 0%nat).1.
Proof.
  assert (Forall (λ d, d < 2)%nat [0; 0; 1]%nat) as Hb
    by (repeat constructor).
  assert (Sorted le [0; 0; 1]%nat) as Hsorted by (repeat constructor).
  split; [reflexivity|]. split; [exact Hb|]. split; [exact Hsorted|].
  exact (proj2 (proj2 (training_loss_x_t_rows demo_field [0; 0; 1]%nat
                         [0; 5]%Q 2 0%nat eq_refl Hb)) Hsorted).
Defined.

(** C5 as stated fails when the rows of one batch element are not
    contiguous.  Three rows with ids [0; 1; 0], both elements at a noise
    level where [alpha = 1] and [sigma = 0]: the result has the three rows,
    in the order first, third, second; whatever the noise, it is not
    [x_start] noised in place. *)
Lemma training_loss_x_t_mixed_order :
  length demo_field = length [0; 1; 0]%nat ∧
  Forall (λ d, d < 2)%nat [0; 1; 0]%nat ∧
  length (training_loss_x_t demo_field [0; 1; 0]%nat [5; 5]%Q 2 0%nat).1
    = length demo_field ∧
  ¬ ∃ noise : field,
      (training_loss_x_t demo_field [0; 1; 0]%nat [5; 5]%Q 2 0%nat).1 =
        corrupt_in_place demo_field [0; 1; 0]%nat [5; 5]%Q noise.
Proof.
  split; [reflexivity|]. split; [repeat constructor|]. split; [reflexivity|].
  intros [noise Heq].
  assert (hd 0 (default []
            ((training_loss_x_t demo_field [0; 1; 0]%nat [5; 5]%Q 2
                0%nat).1 !! 1%nat)) == 5)%Q as Hrow
    by (vm_compute; reflexivity).
  rewrite Heq in Hrow. clear Heq.
  assert (∀ e : Q, ¬ (3 * ((5 + 5) / 10) + (5 - 5) / 10 * e == 5)%Q) as Hne.
  { intros e He.
    assert (3 * ((5 + 5) / 10) + (5 - 5) / 10 * e == 3)%Q as H3 by field.
    rewrite H3 in He. by apply (Qeq_bool_neq 3 5). }
  destruct noise as [|n0 [|[|e n1] noise]]; cbn in Hrow;
    try (by apply (Qeq_bool_neq 0 5)).
  by apply (Hne e).
Qed.

(** The theorem at work on the demo model and octree. *)
Lemma training_loss_per_element_demo :
  length (training_loss demo_model demo_field demo_octree
            0%nat).1 = 2%nat ∧
  ∀ i, (i < 2)%nat →
    ∃ v : Q,
      (training_loss demo_model demo_field demo_octree
         0%nat).1 !! i = Some (Some v)
      ∧ (0 <= v)%Q.
Proof.
  assert (Forall (λ d, d < 2)%nat [0; 0; 1]%nat) as Hb
    by (repeat constructor).
  assert (∀ i, (i < 2)%nat → i ∈ [0; 0; 1]%nat) as Hrows.
  { intros [|[|i]] Hi; [repeat constructor..|lia]. }
  assert (Forall (λ row : vec, length row = 2%nat) demo_field) as Hrect
    by (repeat constructor).
  destruct (@training_loss_per_element demo_imports demo_model
              demo_field demo_octree 2 0%nat eq_refl Hb Hrows
              (Nat.lt_0_succ 1) Hrect eq_refl) as [Hlen Hloss].
  split; [exact Hlen|].
  intros i Hi. destruct (Hloss i Hi) as (v & Hv & _ & Hpos).
  exists v. by split.
Defined.

End DemoRuns.

(** * Further properties *)

(** ** The schedule stays in the unit interval *)

Section ScheduleBounds.

(** X2.  For [N > 0] every pair of the schedule holds times of the unit
    interval, [0 <= time_next < time <= 1], and every step has the same
    size: [time - time_next] is [1 / N]. *)
Theorem get_sampling_timesteps_unit_interval (self : SDFDiffusion)
    (batch N k : nat) :
  (0 < N)%nat → (k < N)%nat →
  ∃ t tn : Q,
    get_sampling_timesteps self batch N !! k
      = Some (replicate batch t, replicate batch tn)
    ∧ (0 <= tn)%Q ∧ (tn < t)%Q ∧ (t <= 1)%Q
    ∧ (t - tn == 1 / inject_Z (Z.of_nat N))%Q.
Proof.
  intros HN Hk.
  destruct (sampling_pair self batch N k Hk) as (t & tn & Ht & Htn & Hpair).
  exists t, tn. split; [exact Hpair|].
  pose proof (linspace_1_0 N k t HN Ht) as Et.
  pose proof (linspace_1_0 N (S k) tn HN Htn) as Etn.
  rewrite Nat2Z.inj_succ in Etn. unfold Z.succ in Etn.
  rewrite inject_Z_plus in Etn.
  assert (0 < inject_Z (Z.of_nat N))%Q as HNq by (unfold Qlt; simpl; lia).
  assert (¬ inject_Z (Z.of_nat N) == 0)%Q as HNz.
  { intros Hz. rewrite Hz in HNq. by apply Qlt_irrefl in HNq. }
  assert (0 <= inject_Z (Z.of_nat k))%Q as Hk0 by (unfold Qle; simpl; lia).
  assert (inject_Z (Z.of_nat k) + 1 <= inject_Z (Z.of_nat N))%Q as HkN.
  { rewrite <- (inject_Z_plus _ 1). unfold Qle. simpl. lia. }
  set (n := inject_Z (Z.of_nat N)) in *. set (x := inject_Z (Z.of_nat k)) in *.
  assert (0 < / n)%Q as Hinv by (by apply Qinv_lt_0_compat).
  assert (x / n + 1 / n == (x + inject_Z 1) / n)%Q as Hsum by (by field).
  assert ((x + inject_Z 1) / n <= 1)%Q as Hle1.
  { apply Qle_shift_div_r; [done|]. by rewrite Qmult_1_l. }
  assert (0 <= x / n)%Q as Hpos.
  { apply Qle_shift_div_l; [done|]. by rewrite Qmult_0_l. }
  assert (1 / n == / n)%Q as Hone by (by field).
  repeat split.
  - rewrite Etn. lra.
  - rewrite Et, Etn. lra.
  - rewrite Et. lra.
  - rewrite Et, Etn. lra.
Qed.

End ScheduleBounds.

Section ScheduleHelpers.

(** Every [time_next] of the schedule of the samplers is at most 1. *)
Lemma get_sampling_timesteps_unit_step (self : SDFDiffusion) steps k :
  (0 < steps)%nat → (k < steps)%nat →
  ∃ t tn : Q,
    get_sampling_timesteps self 1 steps !! k = Some ([t], [tn])
    ∧ (tn <= 1)%Q.
Proof.
  intros HN Hk.
  destruct (sampling_pair self 1 steps k Hk) as (t & tn & Ht & Htn & Hpair).
  exists t, tn. split; [exact Hpair|].
  rewrite (linspace_1_0 steps (S k) tn HN Htn).
  assert (0 < inject_Z (Z.of_nat steps))%Q as HNq
    by (unfold Qlt; simpl; lia).
  assert (0 <= inject_Z (Z.of_nat (S k)))%Q as Hk0
    by (unfold Qle; simpl; lia).
  assert (0 <= inject_Z (Z.of_nat (S k)) / inject_Z (Z.of_nat steps))%Q.
  { apply Qle_shift_div_l; [done|]. by rewrite Qmult_0_l. }
  lra.
Qed.

End ScheduleHelpers.

(** ** What the samplers keep and what they draw *)

Section SamplerInvariants.

Context `{Imports}.

Variables (self : SDFDiffusion) (octree : Octree).

(** The network returns a field of the shape of its input. *)
Hypothesis denoise_shape :
  ∀ x noise_level, shape (denoise_fn self x noise_level octree None) = shape x.

Lemma shape_ddpm_mean time time_next (x : field) :
  shape (ddpm_mean self octree time time_next x) = shape x.
Proof.
  unfold ddpm_mean.
  destruct (log_snr_to_alpha_sigma (log_snr self time)).
  destruct (log_snr_to_alpha_sigma (log_snr self time_next)).
  cbv zeta. unfold s_mul, add, div_s, mul_s, clamp.
  rewrite shape_tmap, shape_tzip.
  - by rewrite !shape_tmap.
  - by rewrite !shape_tmap, denoise_shape.
Qed.

Lemma shape_ddpm_step truncated_index (x : field) pair g :
  shape (ddpm_step self octree truncated_index x pair g).1 = shape x.
Proof.
  destruct pair as [time time_next]. unfold ddpm_step.
  destruct (Qlt_le_dec truncated_index (item time_next)).
  - unfold mbind, M_bind, mret, M_ret.
    pose proof (shape_randn_like x g) as Hn.
    destruct (randn_like x g) as [noise g']. cbn [fst] in *.
    unfold add, s_mul. rewrite shape_tzip.
    + apply shape_ddpm_mean.
    + by rewrite shape_tmap, shape_ddpm_mean.
  - apply shape_ddpm_mean.
Qed.

Lemma shape_ddim_next (x : field) pair :
  shape (ddim_next self octree x pair) = shape x.
Proof.
  unfold ddim_next. cbv zeta. unfold add, mul_s, div_s, sub, s_mul, clamp.
  assert (shape (tzip Qminus x
            (tmap (λ v, (log_snr_to_alpha_sigma
                           (log_snr self (item pair.1))).1 * v)%Q
               (tmap (clamp_scalar (-1) 1)
                  (denoise_fn self x [log_snr self (item pair.1)] octree
                     None)))) = shape x) as Hsub.
  { rewrite shape_tzip; [done|]. by rewrite !shape_tmap, denoise_shape. }
  rewrite shape_tzip.
  - by rewrite !shape_tmap, denoise_shape.
  - by rewrite !shape_tmap, Hsub, denoise_shape.
Qed.

(** A loop whose body keeps a property of the carried value keeps it. *)
Lemma for_in_invariant {A S} (P : S → Prop) (body : S → A → M S) items :
  (∀ s a g, P s → P (body s a g).1) →
  ∀ s g, P s → P (for_in body items s g).1.
Proof.
  intros Hbody. induction items as [|a items IH]; intros s g Hs; [done|].
  cbn [for_in]. unfold mbind, M_bind.
  specialize (Hbody s a g Hs). destruct (body s a g) as [s' g'].
  by apply IH.
Qed.

Lemma shape_ddpm_sample noise_feature steps truncated_index verbose g :
  shape (ddpm_sample self noise_feature octree steps truncated_index
           verbose g).1 = shape noise_feature.
Proof.
  rewrite ddpm_sample_unfold.
  apply (for_in_invariant (λ x : field, shape x = shape noise_feature));
    [|done].
  intros x pair g' Hx. by rewrite shape_ddpm_step.
Qed.

Lemma shape_ddim_sample noise_feature steps truncated_index verbose g :
  shape (ddim_sample self noise_feature octree steps truncated_index
           verbose g).1 = shape noise_feature.
Proof.
  rewrite ddim_sample_fold. cbn [fst].
  generalize (get_sampling_timesteps self 1 steps). intros pairs.
  revert noise_feature. induction pairs as [|pair pairs IH]; intros x; [done|].
  cbn [foldl]. by rewrite IH, shape_ddim_next.
Qed.

(** X3.  With a network that returns a field of the shape of its input,
    [sample] returns a field of the shape of [data], whichever sampler it
    runs and for however many steps. *)
Theorem sample_shape (data : field) use_ddim steps truncated_index verbose g :
  shape (sample self data octree use_ddim steps truncated_index verbose g).1
    = shape data.
Proof.
  unfold sample, mbind, M_bind.
  pose proof (shape_randn_like data g) as Hn.
  destruct (randn_like data g) as [noise g']. cbn [fst] in Hn.
  destruct use_ddim; cbn [negb].
  - by rewrite shape_ddim_sample.
  - by rewrite shape_ddpm_sample.
Qed.

(** The loop of the DDPM sampler draws one noise field per noisy step. *)
Lemma ddpm_loop_draws truncated_index (noise_feature : field) pairs :
  ∀ (x : field) g, shape x = shape noise_feature →
    (for_in (ddpm_step self octree truncated_index) pairs x g).2 =
      Nat.iter (noisy_steps truncated_index pairs)
        (λ g, (randn_like noise_feature g).2) g.
Proof.
  induction pairs as [|[time time_next] pairs IH]; intros x g Hx; [done|].
  cbn [for_in]. unfold mbind, M_bind.
  pose proof (shape_ddpm_step truncated_index x (time, time_next) g) as Hs.
  unfold noisy_steps. cbn [List.filter snd].
  destruct (Qlt_le_dec truncated_index (item time_next)) as [Hlt|Hle].
  - rewrite ddpm_step_noisy in * by done.
    rewrite (randn_like_shape_only x noise_feature Hx) in *.
    destruct (randn_like noise_feature g) as [noise g'] eqn:Hdraw.
    cbn [fst snd] in *. rewrite IH by (by rewrite Hs).
    cbn [length]. fold (noisy_steps truncated_index pairs).
    by rewrite Nat.iter_succ_r, Hdraw.
  - rewrite ddpm_step_truncated in * by done. cbn [fst] in Hs.
    apply IH. by rewrite Hs.
Qed.

(** X4.  With a network that returns a field of the shape of its input, a
    run of [ddpm_sample] leaves the generator where as many draws of a noise
    field of the shape of the initial field leave it as the schedule has
    pairs with [time_next] above the truncation index: how much randomness a
    run uses depends on the shape, the steps and the truncation index, not
    on the values in the field. *)
Theorem ddpm_sample_draws noise_feature steps truncated_index verbose g :
  (ddpm_sample self noise_feature octree steps truncated_index verbose g).2 =
    Nat.iter
      (noisy_steps truncated_index (get_sampling_timesteps self 1 steps))
      (λ g, (randn_like noise_feature g).2) g.
Proof. rewrite ddpm_sample_unfold. by apply ddpm_loop_draws. Qed.

End SamplerInvariants.

Section SamplerEdges.

Context `{Imports}.

Lemma for_in_no_draw {A S} (body : S → A → M S) (f : S → A → S) items :
  Forall (λ a, ∀ s g, body s a g = (f s a, g)) items →
  ∀ s g, for_in body items s g = (foldl f s items, g).
Proof.
  induction 1 as [|a items Ha _ IH]; intros s g; [done|].
  cbn [for_in foldl]. unfold mbind, M_bind. rewrite Ha. apply IH.
Qed.

(** X5.  With a truncation index of 1 or more no step of [ddpm_sample] is
    above it: the run draws no noise at all.  It leaves the generator as it
    found it and returns the same field from every generator state. *)
Theorem ddpm_sample_fully_truncated (self : SDFDiffusion) noise_feature
    octree steps truncated_index verbose (g g' : generator) :
  (1 <= truncated_index)%Q →
  (ddpm_sample self noise_feature octree steps truncated_index verbose g).2
    = g
  ∧ (ddpm_sample self noise_feature octree steps truncated_index verbose g).1
    = (ddpm_sample self noise_feature octree steps truncated_index verbose
         g').1.
Proof.
  intros Htrunc. rewrite !ddpm_sample_unfold.
  assert (Forall (λ pair : vec * vec, ∀ (x : field) g0,
            ddpm_step self octree truncated_index x pair g0 =
              (ddpm_mean self octree (item pair.1) (item pair.2) x, g0))
            (get_sampling_timesteps self 1 steps)) as Hall.
  { apply Forall_lookup. intros k [time time_next] Hk x g0.
    assert (k < steps)%nat as Hlt.
    { apply lookup_lt_Some in Hk.
      by rewrite length_get_sampling_timesteps in Hk. }
    assert (0 < steps)%nat as Hsteps by lia.
    destruct (get_sampling_timesteps_unit_step self steps k Hsteps Hlt)
      as (t & tn & Hpair & Hle).
    rewrite Hpair in Hk. injection Hk as <- <-.
    apply ddpm_step_truncated. cbn [item hd replicate].
    by apply Qle_trans with 1%Q. }
  by rewrite !(for_in_no_draw _ _ _ Hall).
Qed.

(** X6.  With no step at all both samplers hand back the field they were
    given, so [sample] returns the noise it drew for [data] and the
    generator as that draw left it. *)
Theorem sample_no_steps (self : SDFDiffusion) (data : field) octree use_ddim
    truncated_index verbose g :
  sample self data octree use_ddim 0 truncated_index verbose g
    = randn_like data g.
Proof.
  unfold sample, mbind, M_bind.
  destruct (randn_like data g) as [noise g'].
  by destruct use_ddim, verbose.
Qed.

(** X7.  A DDIM [sample] uses the generator for the initial noise only: it
    leaves it as the draw of a noise field of the shape of [data] leaves
    it, for every number of steps. *)
Theorem sample_ddim_draws (self : SDFDiffusion) (data : field) octree steps
    truncated_index verbose g :
  (sample self data octree true steps truncated_index verbose g).2
    = (randn_like data g).2.
Proof.
  unfold sample, mbind, M_bind.
  destruct (randn_like data g) as [noise g']. cbn [negb snd].
  by rewrite ddim_sample_fold.
Qed.

End SamplerEdges.

(** ** What the masks of the training loss do with the rows *)

Section MaskPartition.

Context {A : Type}.
Implicit Types (x : list A) (ids : list nat).

(** Adding a row with id [d] adds it to the rows of element [d]. *)
Lemma by_element_cons r x d ids b :
  (d < b)%nat →
  by_element (r :: x) (d :: ids) b ≡ₚ r :: by_element x ids b.
Proof.
  intros Hd. unfold by_element.
  replace b with (d + S (b - S d))%nat by lia.
  rewrite seq_app, <- cons_seq, !fmap_app, !fmap_cons, !concat_app.
  cbn [concat plus]. rewrite index_mask_cons, Nat.eqb_refl.
  assert (∀ l, Forall (λ i, i ≠ d) l →
            (λ i, index_mask (r :: x) (eq_mask (d :: ids) i)) <$> l =
            (λ i, index_mask x (eq_mask ids i)) <$> l) as Hother.
  { intros l Hl. apply list_fmap_ext. intros k i Hk.
    rewrite Forall_lookup in Hl. specialize (Hl k i Hk).
    rewrite index_mask_cons. by destruct (Nat.eqb_spec d i). }
  rewrite !Hother.
  - rewrite <- app_comm_cons. symmetry. apply Permutation_middle.
  - apply Forall_forall. intros i [Hi _]%elem_of_seq. lia.
  - apply Forall_forall. intros i [_ Hi]%elem_of_seq. lia.
Qed.

(** X8.  With one id below [batch_size] for every row, the masks
    [batch_id == i] of the loops, [i] running over [range(batch_size)],
    partition the rows: put end to end, the selections hold every row once,
    none twice and none lost. *)
Theorem by_element_permutation x ids b :
  length x = length ids → Forall (λ d, d < b)%nat ids →
  by_element x ids b ≡ₚ x.
Proof.
  intros Hlen Hb. revert x Hlen.
  induction Hb as [|d ids Hd Hb IH]; intros [|r x] Hlen; try discriminate.
  - unfold by_element. rewrite concat_fmap_nil; [done|]. by intros i _.
  - injection Hlen as Hlen. rewrite by_element_cons by done.
    by rewrite IH.
Qed.

Lemma index_mask_all x ids i :
  length x = length ids → Forall (λ d, d = i) ids →
  index_mask x (eq_mask ids i) = x.
Proof.
  intros Hlen Hall. revert x Hlen.
  induction Hall as [|d ids -> _ IH]; intros [|r x] Hlen; try discriminate;
    [done|].
  injection Hlen as Hlen. rewrite index_mask_cons, Nat.eqb_refl.
  by rewrite IH.
Qed.

End MaskPartition.

Section TrainingEdges.

Context `{Imports}.


(** X10.  With a single batch element that owns every row, the forward
    corruption is the plain formula on the whole field:
    [x_start * alpha + sigma * randn_like(x_start)], at the noise level of
    that element; the masking changes nothing. *)
Theorem training_loss_x_t_single (x_start : field) (batch_id : list nat)
    (noise_level : vec) g :
  length x_start = length batch_id → Forall (λ d, d = 0%nat) batch_id →
  training_loss_x_t x_start batch_id noise_level 1 g =
    (add (mul_s x_start (log_snr_to_alpha_sigma (nth 0 noise_level 0%Q)).1)
         (s_mul (log_snr_to_alpha_sigma (nth 0 noise_level 0%Q)).2
            (randn_like x_start g).1),
     (randn_like x_start g).2).
Proof.
  intros Hlen Hall. unfold training_loss_x_t.
  cbn [seq mapM]. rewrite index_mask_all by done.
  destruct (log_snr_to_alpha_sigma (nth 0 noise_level 0%Q)) as [alpha sigma].
  cbn [fst snd]. unfold mbind, M_bind, mret, M_ret.
  destruct (randn_like x_start g) as [noise g']. cbn [concat fst snd].
  by rewrite app_nil_r.
Qed.



End TrainingEdges.

Section PerfectPrediction.

Context `{Imports}.

Lemma sum_zero xs : Forall (λ v, v == 0)%Q xs → (sum xs == 0)%Q.
Proof.
  induction 1 as [|x xs Hx _ IH]; simpl; [reflexivity|].
  rewrite Hx, IH. reflexivity.
Qed.

Lemma pow2_sub_self (x : field) :
  Forall (Forall (λ v, v == 0)%Q) (pow2 (sub x x)).
Proof.
  induction x as [|r x IH]; [constructor|].
  rewrite pow2_sub_cons. constructor; [|exact IH].
  clear. induction r as [|a r IH]; cbn [zip_with]; constructor; [|exact IH].
  simpl. ring.
Qed.

(** X13.  When the network predicts [x_start] exactly, every entry of the
    loss that is a number is 0. *)
Theorem training_loss_perfect_prediction (self : SDFDiffusion)
    (x_start : field) octree g :
  let b := batch_size octree in
  let ids := batch_id octree (depth octree) true in
  let noise_level := log_snr self <$> (zeros_uniform_ b 0 1 g).1 in
  let x_t :=
    (training_loss_x_t x_start ids noise_level b
       (zeros_uniform_ b 0 1 g).2).1 in
  length x_start = length ids →
  denoise_fn self x_t noise_level octree None = x_start →
  ∀ i v, (training_loss self x_start octree g).1 !! i = Some (Some v) →
    (v == 0)%Q.
Proof.
  cbv zeta. intros _ Hpred i v. rewrite training_loss_run. cbn [fst].
  rewrite Hpred. intros Hv.
  assert (i < batch_size octree)%nat as Hi.
  { apply lookup_lt_Some in Hv. by rewrite length_training_loss_fill in Hv. }
  rewrite training_loss_fill_lookup in Hv by done.
  injection Hv as Hv. unfold tmean in Hv.
  pose proof (pow2_sub_self x_start) as Hzero.
  apply (Forall_index_mask _ _
           (eq_mask (batch_id octree (depth octree) true) i)) in Hzero.
  apply Forall_concat in Hzero.
  destruct (concat _) as [|q qs]; [discriminate|].
  injection Hv as <-. unfold Qdiv. rewrite (sum_zero _ Hzero). ring.
Qed.

End PerfectPrediction.

(** ** The further properties at work in the concrete setting *)

Section MoreDemoRuns.

Import Demo.

Lemma demo_denoise_shape (x : field) (noise_level : vec) :
  shape (denoise_fn demo_model x noise_level demo_octree None) = shape x.
Proof. apply shape_tmap. Qed.

(** Two steps with the default truncation index. *)
Lemma ddpm_sample_last_step_demo :
  ∃ t tn : Q,
    get_sampling_timesteps demo_model 1 2 !! 1%nat = Some ([t], [tn])
    ∧ (tn == 0)%Q
    ∧ (ddpm_sample demo_model demo_field demo_octree 2 0 false 0%nat).2
      = 6%nat.
Proof.
  destruct (@ddpm_sample_last_step demo_imports demo_model demo_field
              demo_octree 2 0%Q false 0%nat (Nat.lt_0_succ 1) (Qle_refl 0))
    as (t & tn & Hpair & Hzero & Hrun).
  exists t, tn. split; [exact Hpair|]. split; [exact Hzero|].
  rewrite Hrun. reflexivity.
Defined.

(** The third of four steps goes from 1/2 to 1/4. *)
Lemma get_sampling_timesteps_unit_interval_demo :
  ∃ t tn : Q,
    get_sampling_timesteps demo_model 1 4 !! 2%nat = Some ([t], [tn])
    ∧ (0 <= tn)%Q ∧ (tn < t)%Q ∧ (t <= 1)%Q ∧ (t - tn == 1 / 4)%Q.
Proof.
  assert (2 < 4)%nat as Hk by lia.
  exact (get_sampling_timesteps_unit_interval demo_model 1 4 2
           (Nat.lt_0_succ 3) Hk).
Defined.

Lemma sample_shape_demo :
  shape (sample demo_model demo_field demo_octree false 3 0 false 0%nat).1
    = [2; 2; 2]%nat.
Proof.
  exact (@sample_shape demo_imports demo_model demo_octree
           demo_denoise_shape demo_field false 3 0%Q false 0%nat).
Defined.

(** Three steps, truncation index 1/2: only the step to time 2/3 is noisy,
    so the run draws the six values of one noise field. *)
Lemma ddpm_sample_draws_demo :
  (ddpm_sample demo_model demo_field demo_octree 3 0.5 false 0%nat).2
    = 6%nat.
Proof.
  rewrite (@ddpm_sample_draws demo_imports demo_model demo_octree
             demo_denoise_shape demo_field 3 0.5%Q false 0%nat).
  reflexivity.
Defined.

Lemma ddpm_sample_fully_truncated_demo :
  (ddpm_sample demo_model demo_field demo_octree 3 1 false 4%nat).2 = 4%nat
  ∧ (ddpm_sample demo_model demo_field demo_octree 3 1 false 4%nat).1
    = (ddpm_sample demo_model demo_field demo_octree 3 1 false 9%nat).1.
Proof.
  exact (@ddpm_sample_fully_truncated demo_imports demo_model demo_field
           demo_octree 3 1%Q false 4%nat 9%nat (Qle_refl 1)).
Defined.

(** The ids [0; 1; 0]: the masks give the first, the third and the second
    row. *)
Lemma by_element_permutation_demo :
  by_element demo_field [0; 1; 0]%nat 2 ≡ₚ demo_field.
Proof.
  assert (Forall (λ d, d < 2)%nat [0; 1; 0]%nat) as Hb
    by (repeat constructor).
  exact (by_element_permutation demo_field [0; 1; 0]%nat 2 eq_refl Hb).
Defined.


Lemma training_loss_x_t_single_demo :
  (training_loss_x_t demo_field [0; 0; 0]%nat [0]%Q 1 0%nat).2 = 6%nat.
Proof.
  assert (Forall (λ d, d = 0%nat) [0; 0; 0]%nat) as Hall
    by (repeat constructor).
  rewrite (@training_loss_x_t_single demo_imports demo_field [0; 0; 0]%nat
             [0]%Q 0%nat eq_refl Hall).
  reflexivity.
Defined.



(** A network that has learnt [demo_field] by heart. *)
Lemma training_loss_perfect_prediction_demo :
  ∃ v : Q,
    (training_loss
       {| base_size := 32; upfactor := 2; eps := 1e-6; verbose := false;
          sdf_clip_value := 0.05; log_snr := beta_linear_log_snr;
          denoise_fn := λ _ _ _ _, demo_field |}
       demo_field demo_octree 0%nat).1 !! 0%nat = Some (Some v)
    ∧ (v == 0)%Q.
Proof.
  eexists. split; [reflexivity|].
  apply (@training_loss_perfect_prediction demo_imports
           {| base_size := 32; upfactor := 2; eps := 1e-6; verbose := false;
              sdf_clip_value := 0.05; log_snr := beta_linear_log_snr;
              denoise_fn := λ _ _ _ _, demo_field |}
           demo_field demo_octree 0%nat eq_refl eq_refl 0%nat).
  reflexivity.
Defined.

End MoreDemoRuns.
